(** * tstorage: memory partition, memory series and partition list

    A shallow embedding of [memory_partition.go] and of the partition list
    (the linked list of partitions) of the tstorage engine, with the
    properties of its specification stated over it.

    Conventions of the embedding.
    - [int64] values are integers of [Z]; the atomic additions of the source
      ([atomic.AddInt64]) wrap around as the machine does ([wrap64]).
      [int] is taken to be 64 bits wide, so that [int(x)] of an [int64] is [x].
    - A Go slice is a [list]; indexing and re-slicing out of range is a
      run-time panic, written [None] in the [option] monad.
    - [sync.Map] keyed by the marshalled metric name is a [gmap string].
    - Locks are not modelled: every function is run to completion by one
      goroutine. *)

From stdpp Require Import base option list sorting gmap strings.
From Stdlib Require Import ZArith Lia.

Set Default Proof Using "Type".

(** ** 64-bit integers *)

Definition min_int64 : Z := (- 2 ^ 63)%Z.
Definition max_int64 : Z := (2 ^ 63 - 1)%Z.

(** Two's complement wrap-around of a 64-bit signed integer. *)
Definition wrap64 (z : Z) : Z := ((z + 2 ^ 63) mod 2 ^ 64 - 2 ^ 63)%Z.

(** [atomic.AddInt64(&x, d)]: the new value of [x]. *)
Definition addInt64 (x d : Z) : Z := wrap64 (x + d).

Definition in_int64 (z : Z) : Prop := (min_int64 <= z <= max_int64)%Z.

(** ** Slices *)

(** [s[i]] for an [int] index: a panic ([None]) out of range. *)
Definition index {A} (s : list A) (i : Z) : option A :=
  if (i <? 0)%Z then None else s !! Z.to_nat i.

(** [s[lo:hi]]: a panic unless [0 <= lo <= hi <= len(s)].  (Go allows [hi] up
    to the capacity; the functions below never re-slice beyond the length
    when the series invariant holds, and the model has no capacity.) *)
Definition slice {A} (s : list A) (lo hi : Z) : option (list A) :=
  if ((0 <=? lo) && (lo <=? hi) && (hi <=? Z.of_nat (length s)))%Z
  then Some (take (Z.to_nat (hi - lo)) (drop (Z.to_nat lo) s))
  else None.

(** ** [sort.Search] of the Go standard library

<<
    i, j := 0, n
    for i < j {
        h := int(uint(i+j) >> 1)
        if !f(h) { i = h + 1 } else { j = h }
    }
    return i
>>
    The closure [f] indexes a slice and so may panic.  The loop runs at most
    [n] times: [search_fuel] shows that the fuel given by [Search] is never
    exhausted. *)

Fixpoint search_loop (fuel : nat) (f : Z → option bool) (i j : Z) : option Z :=
  if (i <? j)%Z then
    match fuel with
    | O => None
    | S fuel' =>
        let h := Z.shiftr (i + j) 1 in
        b ← f h;
        if negb b then search_loop fuel' f (h + 1) j
        else search_loop fuel' f i h
    end
  else Some i.

Definition Search (n : Z) (f : Z → option bool) : option Z :=
  search_loop (Z.to_nat n) f 0 n.

(** ** Data points and the memory series ([memoryMetric]) *)

Record DataPoint (T : Type) : Type := mkDataPoint {
  Timestamp : Z;
  Value : T
}.
Arguments mkDataPoint {T} _ _.
Arguments Timestamp {T} _.
Arguments Value {T} _.

(** The order of [sort.Slice]'s [less] in [encodeAllPoints], as "not less
    the other way round". *)
Definition ts_le {T} (a b : DataPoint T) : Prop :=
  (Timestamp a <= Timestamp b)%Z.

#[global] Instance ts_le_dec {T} : RelDecision (@ts_le T).
Proof. intros a b. unfold ts_le. apply _. Defined.

(** A Go [error] value, by its message. *)
Definition error : Type := string.

Module Metric.

(** Which slice an encoded point was read from. *)
Inductive origin := FromPoints | FromOutOfOrder.

#[global] Instance origin_eq_dec : EqDecision origin.
Proof. solve_decision. Defined.

Record memoryMetric (T : Type) : Type := mkMetric {
  name : string;
  size : Z;
  minTimestamp : Z;
  maxTimestamp : Z;
  (* points must kept in order *)
  points : list (DataPoint T);
  outOfOrderPoints : list (DataPoint T)
}.
Arguments mkMetric {T} _ _ _ _ _ _.
Arguments name {T} _.
Arguments size {T} _.
Arguments minTimestamp {T} _.
Arguments maxTimestamp {T} _.
Arguments points {T} _.
Arguments outOfOrderPoints {T} _.

Section metric.
Context {T : Type}.
Implicit Types (m : memoryMetric T) (point p : DataPoint T).

(** [insertPoint]: the first insertion, the in-order insertion, or the
    out-of-order buffer.  [m.points[size-1]] panics when [size] is not the
    length of [points]. *)
Definition insertPoint m point : option (memoryMetric T) :=
  let sz := size m in
  if (sz =? 0)%Z then
    Some (mkMetric (name m) (addInt64 (size m) 1)
            (Timestamp point) (Timestamp point)
            (points m ++ [point]) (outOfOrderPoints m))
  else
    last_pt ← index (points m) (sz - 1);
    if (Timestamp last_pt <? Timestamp point)%Z then
      Some (mkMetric (name m) (addInt64 (size m) 1)
              (minTimestamp m) (Timestamp point)
              (points m ++ [point]) (outOfOrderPoints m))
    else
      Some (mkMetric (name m) (size m) (minTimestamp m) (maxTimestamp m)
              (points m) (outOfOrderPoints m ++ [point])).

(** [selectPoints]: the re-slicing [m.points[startIdx:endIdx]]. *)
Definition selectPoints m (start end_ : Z) : option (list (DataPoint T)) :=
  let sz := size m in
  let minTs := minTimestamp m in
  let maxTs := maxTimestamp m in
  if (end_ <=? minTs)%Z then Some []
  else
    startIdx ←
      (if (start <=? minTs)%Z then Some 0%Z
       else Search sz (λ i, p ← index (points m) i;
                            Some (Timestamp p >=? start)%Z));
    endIdx ←
      (if (end_ >=? maxTs)%Z then Some sz
       else Search sz (λ i, p ← index (points m) i;
                            Some (Timestamp p >=? end_)%Z));
    slice (points m) startIdx endIdx.

(** *** The series encoder and [encodeAllPoints] *)

(** The interface [seriesEncoder]: an encoder of state [E].  [encodePoint]
    gives the encoder's next state and its result ([None] is a nil error). *)
Class seriesEncoder (E : Type) := {
  encodePoint : E → DataPoint T → E * option error;
  flush : E → E * option error
}.

(** [fakeEncoder] of the tests: the two function fields, nil or a function.
    The function fields may close over state of their own; here they are
    pure. *)
Record fakeEncoder := mkFakeEncoder {
  encodePointFunc : option (DataPoint T → option error);
  flushFunc : option (option error)
}.

#[global] Instance fakeEncoder_encoder : seriesEncoder fakeEncoder := {
  encodePoint f p :=
    match encodePointFunc f with
    | None => (f, None)
    | Some g => (f, g p)
    end;
  flush f :=
    match flushFunc f with
    | None => (f, None)
    | Some r => (f, r)
    end
}.

(** [sort.Slice(m.outOfOrderPoints, less)] with
    [less i j = outOfOrderPoints[i].Timestamp < outOfOrderPoints[j].Timestamp].
    The Go library promises a permutation of the slice in which no element
    is less than an earlier one, and no stability; the embedding takes any
    function with that contract. *)
Class SliceSorter := {
  sortSlice : list (DataPoint T) → list (DataPoint T);
  sortSlice_perm : ∀ l, sortSlice l ≡ₚ l;
  sortSlice_sorted : ∀ l,
    StronglySorted ts_le (sortSlice l)
}.

(** The encoder together with the log of the [encodePoint] calls made so
    far, oldest first. *)
Record encState (E : Type) := mkEncState {
  enc : E;
  calls : list (origin * DataPoint T)
}.
Arguments mkEncState {E} _ _.
Arguments enc {E} _.
Arguments calls {E} _.

Section encode.
Context {E : Type} `{!seriesEncoder E}.

(** One call [encoder.encodePoint(p)]. *)
Definition encode (o : origin) (p : DataPoint T) (st : encState E)
  : encState E * option error :=
  let '(e', r) := encodePoint (enc st) p in
  (mkEncState e' (calls st ++ [(o, p)]), r).

(** [for i < len(s) { if err := encoder.encodePoint(s[i]); err != nil
    { return err }; i++ }] over the rest [s[i:]] of a slice. *)
Fixpoint drain (o : origin) (rest : list (DataPoint T)) (st : encState E)
  : encState E * option error :=
  match rest with
  | [] => (st, None)
  | p :: rest' =>
      let '(st', r) := encode o p st in
      match r with
      | Some err => (st', Some err)
      | None => drain o rest' st'
      end
  end.

(** The two-pointer loop over [outOfOrderPoints[oi:]] and [points[pi:]],
    followed by the two draining loops (of which one at most has work). *)
Fixpoint merge_loop (ooo : list (DataPoint T))
  : list (DataPoint T) → encState E → encState E * option error :=
  fix inner (pts : list (DataPoint T)) (st : encState E) :=
    match ooo, pts with
    | [], _ => drain FromPoints pts st
    | _, [] => drain FromOutOfOrder ooo st
    | o :: ooo', p :: pts' =>
        if (Timestamp o <? Timestamp p)%Z then
          let '(st', r) := encode FromOutOfOrder o st in
          match r with
          | Some err => (st', Some err)
          | None => merge_loop ooo' pts st'
          end
        else
          let '(st', r) := encode FromPoints p st in
          match r with
          | Some err => (st', Some err)
          | None => inner pts' st'
          end
    end.

(** [encodeAllPoints]: the series with [outOfOrderPoints] sorted in place,
    the encoder with the log of its calls, and the error returned. *)
Definition encodeAllPoints `{!SliceSorter} m (e : E)
  : memoryMetric T * encState E * option error :=
  let ooo := sortSlice (outOfOrderPoints m) in
  let m' := mkMetric (name m) (size m) (minTimestamp m) (maxTimestamp m)
              (points m) ooo in
  let '(st, r) := merge_loop ooo (points m) (mkEncState e []) in
  (m', st, r).

(** The calls [cs] made one after the other on the encoder, which they take
    from its state [e] to its state [e']: every call before the last returns
    nil, and [r] is what the last call returns (nil when [cs] is empty).  So
    no call follows one that returned an error, and a nil [r] means that no
    call returned an error. *)
Inductive encoded : E → list (origin * DataPoint T) → E → option error → Prop :=
  | encoded_nil e : encoded e [] e None
  | encoded_last e o p e' err :
      encodePoint e p = (e', Some err) → encoded e [(o, p)] e' (Some err)
  | encoded_cons e o p e1 cs e' r :
      encodePoint e p = (e1, None) → encoded e1 cs e' r →
      encoded e ((o, p) :: cs) e' r.

(** What a run of the loops has done when it returns: the calls of a prefix
    [done] of the order [all] it was to go through, made in turn on the
    encoder, the result being that of the last call; all of the order when it
    returns nil. *)
Definition ran (all : list (origin * DataPoint T)) (st : encState E)
    (res : encState E * option error) : Prop :=
  ∃ done rest, all = done ++ rest ∧ calls res.1 = calls st ++ done ∧
    encoded (enc st) done (enc res.1) res.2 ∧
    (res.2 = None → rest = []).

End encode.

(** *** The series invariant *)

Definition ascending (l : list (DataPoint T)) : Prop :=
  Sorted Z.le (Timestamp <$> l).

(** [points] ascending, [size] its length, [minTimestamp] and
    [maxTimestamp] the timestamps of its first and last point. *)
Record series_inv m : Prop := {
  inv_size : size m = Z.of_nat (length (points m));
  inv_ascending : ascending (points m);
  inv_min : ∀ p, head (points m) = Some p → minTimestamp m = Timestamp p;
  inv_max : ∀ p, last (points m) = Some p → maxTimestamp m = Timestamp p
}.

(** The points of the half-open window [start <= Timestamp < end_]. *)
Definition in_window (start end_ : Z) (p : DataPoint T) : Prop :=
  (start <= Timestamp p < end_)%Z.

#[global] Instance in_window_dec start end_ p : Decision (in_window start end_ p).
Proof. unfold in_window. apply _. Defined.

(** What [selectPoints] takes for the window when [end_] is above
    [minTimestamp]: the points from [start] on that are below [end_], or all
    of them from [start] on when [end_] is at or above [maxTimestamp]. *)
Definition selected m (start end_ : Z) (p : DataPoint T) : Prop :=
  (start <= Timestamp p)%Z ∧
  ((Timestamp p < end_)%Z ∨ (maxTimestamp m <= end_)%Z).

#[global] Instance selected_dec m start end_ p : Decision (selected m start end_ p).
Proof. unfold selected. apply _. Defined.

(** [r] is where the timestamps of [l] reach [x]: below [r] they are
    smaller, from [r] on they are not. *)
Definition boundary (l : list (DataPoint T)) (x : Z) (r : Z) : Prop :=
  (0 <= r <= Z.of_nat (length l))%Z ∧
  ∀ (k : nat) p, l !! k = Some p →
    ((Z.of_nat k < r)%Z → (Timestamp p < x)%Z) ∧
    ((r <= Z.of_nat k)%Z → (x <= Timestamp p)%Z).


(** *** The order of the flush, as the specification words it *)

(** The merge of the sorted out-of-order points [ooo] into [points], the
    in-order point first on equal timestamps; every point with the slice it
    comes from. *)
Fixpoint merged (ooo : list (DataPoint T))
  : list (DataPoint T) → list (origin * DataPoint T) :=
  fix inner (pts : list (DataPoint T)) :=
    match ooo, pts with
    | [], _ => (λ p, (FromPoints, p)) <$> pts
    | _, [] => (λ o, (FromOutOfOrder, o)) <$> ooo
    | o :: ooo', p :: pts' =>
        if (Timestamp o <? Timestamp p)%Z
        then (FromOutOfOrder, o) :: merged ooo' pts
        else (FromPoints, p) :: inner pts'
    end.

(** The calls [cs] go through the multiset [pts ++ ooo] once, in ascending
    order of timestamp, the points of [pts] in their order, and an in-order
    point before every out-of-order point of the same timestamp. *)
Record flush_order (pts ooo : list (DataPoint T))
    (cs : list (origin * DataPoint T)) : Prop := {
  fo_perm : cs.*2 ≡ₚ pts ++ ooo;
  fo_sorted : StronglySorted ts_le cs.*2;
  fo_points : (filter (λ c, c.1 = FromPoints) cs).*2 = pts;
  fo_ooo : (filter (λ c, c.1 = FromOutOfOrder) cs).*2 ≡ₚ ooo;
  fo_tie : ∀ (i j : nat) o p,
    cs !! i = Some (FromOutOfOrder, o) → cs !! j = Some (FromPoints, p) →
    Timestamp o = Timestamp p → (j < i)%nat
}.

End metric.

Arguments SliceSorter : clear implicits.
Arguments fakeEncoder : clear implicits.
Arguments seriesEncoder : clear implicits.
Arguments encState : clear implicits.
Arguments mkEncState {T E} _ _.
Arguments enc {T E} _.
Arguments calls {T E} _.
Arguments mkFakeEncoder {T} _ _.
Arguments encodePointFunc {T} _.
Arguments flushFunc {T} _.

(** stdpp's merge sort on timestamps is one sorter with the contract. *)
#[global] Program Instance merge_sorter {T} : SliceSorter T := {
  sortSlice := merge_sort ts_le
}.
Next Obligation. intros T l. apply merge_sort_Permutation. Qed.
Next Obligation.
  intros T l. apply StronglySorted_merge_sort.
  - intros a b c. unfold ts_le. lia.
  - intros a b. unfold ts_le. lia.
Qed.

End Metric.

(** ** Rows, the write-ahead log and the clock *)

Record Label := mkLabel {
  Name : string;
  LabelValue : string
}.

(** A [Row] embeds its [DataPoint]: [row.Timestamp] is
    [row.DataPoint.Timestamp]. *)
Record Row (T : Type) : Type := mkRow {
  Metric : string;
  Labels : list Label;
  RowDataPoint : DataPoint T
}.
Arguments mkRow {T} _ _ _.
Arguments Metric {T} _.
Arguments Labels {T} _.
Arguments RowDataPoint {T} _.

Definition rowTimestamp {T} (row : Row T) : Z := Timestamp (RowDataPoint row).

Inductive walOperation := operationInsert.

(** The interface [wal], for a log of state [W]; [append] is the one method
    the memory partition calls. *)
Class wal (T W : Type) := {
  append : W → walOperation → list (Row T) → W * option error
}.

(** [nopWAL]: every method returns nil. *)
Inductive nopWAL := NopWAL.

#[global] Instance nopWAL_wal {T} : wal T nopWAL := {
  append w _ _ := (w, None)
}.

(** A log that takes a given number of appends and fails from then on (a
    disk that fills up); its state is the number of appends left. *)
Definition quotaWAL : Type := nat.

#[global] Instance quotaWAL_wal {T} : wal T quotaWAL := {
  append w _ _ :=
    match w with
    | O => (O, Some "no space left on device")
    | S w' => (w', None)
    end
}.

(** The [wal] field of a memory partition: [newMemoryPartition] replaces a
    nil [wal] by a [nopWAL]. *)
Inductive walField (W : Type) :=
  | WalNop (w : nopWAL)
  | WalGiven (w : W).
Arguments WalNop {W} _.
Arguments WalGiven {W} _.

#[global] Instance walField_wal {T W} `{!wal T W} : wal T (walField W) := {
  append w op rows :=
    match w with
    | WalNop w0 => let '(w', r) := append w0 op rows in (WalNop w', r)
    | WalGiven w0 => let '(w', r) := append w0 op rows in (WalGiven w', r)
    end
}.

(** [TimestampPrecision] is a string type with four named constants; the
    switches of the source send every other value to their default case. *)
Inductive TimestampPrecision :=
  | Nanoseconds
  | Microseconds
  | Milliseconds
  | Seconds
  | OtherPrecision (s : string).

(** A [time.Time], by the two readings [toUnix] takes of it. *)
Record Time := mkTime {
  UnixNano : Z;
  Unix : Z
}.

(** A [time.Duration], by the four readings [newMemoryPartition] takes of
    it; [DurSeconds] is [int64(d.Seconds())]. *)
Record Duration := mkDuration {
  DurNanoseconds : Z;
  DurMicroseconds : Z;
  DurMilliseconds : Z;
  DurSeconds : Z
}.

(** Go's integer division truncates toward zero. *)
Definition toUnix (t : Time) (precision : TimestampPrecision) : Z :=
  match precision with
  | Nanoseconds => UnixNano t
  | Microseconds => Z.quot (UnixNano t) 1000
  | Milliseconds => Z.quot (UnixNano t) 1000000
  | Seconds => Unix t
  | OtherPrecision _ => UnixNano t
  end.

(** ** The memory partition *)

Module Partition.

Import Metric.

Record memoryPartition (T W : Type) : Type := mkPartition {
  (* The number of data points *)
  numPoints : Z;
  (* minT is immutable. *)
  minT : Z;
  maxT : Z;
  (* A hash map from metric name to memoryMetric. *)
  metrics : gmap string (memoryMetric T);
  (* Write ahead log. *)
  wal_ : walField W;
  partitionDuration : Z;
  timestampPrecision : TimestampPrecision;
  (* sync.Once: true once Do has run its function *)
  once : bool
}.
Arguments mkPartition {T W} _ _ _ _ _ _ _ _.
Arguments numPoints {T W} _.
Arguments minT {T W} _.
Arguments maxT {T W} _.
Arguments metrics {T W} _.
Arguments wal_ {T W} _.
Arguments partitionDuration {T W} _.
Arguments timestampPrecision {T W} _.
Arguments once {T W} _.

Section partition.
Context {T W : Type} `{!wal T W}.
(** [marshalMetricName] (label.go) is not among the sources: a parameter. *)
Context (marshalMetricName : string → list Label → string).
Implicit Types (m : memoryPartition T W) (rows : list (Row T)).

Definition newMemoryPartition (w : option W) (d : Duration)
    (precision : TimestampPrecision) : memoryPartition T W :=
  let w' := match w with None => WalNop NopWAL | Some w0 => WalGiven w0 end in
  let d' :=
    match precision with
    | Nanoseconds => DurNanoseconds d
    | Microseconds => DurMicroseconds d
    | Milliseconds => DurMilliseconds d
    | Seconds => DurSeconds d
    | OtherPrecision _ => DurNanoseconds d
    end in
  mkPartition 0 0 0 ∅ w' d' precision false.

Definition minTimestamp m : Z := minT m.
Definition maxTimestamp m : Z := maxT m.
Definition size m : Z := numPoints m.

Definition active m : bool :=
  (maxTimestamp m - minTimestamp m + 1 <? partitionDuration m)%Z.

Definition clean m : option error := None.
Definition expired m : bool := false.

Definition set_metrics m (ms : gmap string (memoryMetric T)) :=
  mkPartition (numPoints m) (minT m) (maxT m) ms (wal_ m)
    (partitionDuration m) (timestampPrecision m) (once m).

(** [getMetric]: the series of the given name, stored first when there is
    none.  The source returns a pointer into the map; the callers below
    write the series they changed back under its name. *)
Definition getMetric m (name : string) : memoryPartition T W * memoryMetric T :=
  match metrics m !! name with
  | Some value => (m, value)
  | None =>
      let value := mkMetric name 0 0 0 [] [] in
      (set_metrics m (<[name := value]> (metrics m)), value)
  end.

(** The function given to [once.Do]: the smallest timestamp of the batch. *)
Definition batch_min (first : Z) rows : Z :=
  foldl (λ mn row, if (rowTimestamp row <? mn)%Z then rowTimestamp row else mn)
    first rows.

Definition once_do m (row0 : Row T) rows : memoryPartition T W :=
  if once m then m
  else
    let mn := batch_min (rowTimestamp row0) rows in
    mkPartition (numPoints m) mn (maxT m) (metrics m) (wal_ m)
      (partitionDuration m) (timestampPrecision m) true.

(** The local variables of the loop of [insertRows]. *)
Record loopState := mkLoop {
  l_part : memoryPartition T W;
  l_outdated : list (Row T);
  l_maxTimestamp : Z;
  l_rowsNum : Z
}.

(** The body of [for i := range rows], at row [i]; [now i] is what
    [time.Now()] returns if it is read for that row. *)
Definition insertRow (now : nat → Time) (i : nat) (row : Row T)
    (st : loopState) : option loopState :=
  let m := l_part st in
  if (rowTimestamp row <? minTimestamp m)%Z then
    Some (mkLoop m (l_outdated st ++ [row]) (l_maxTimestamp st) (l_rowsNum st))
  else
    let ts :=
      if (rowTimestamp row =? 0)%Z
      then toUnix (now i) (timestampPrecision m)
      else rowTimestamp row in
    let maxTs :=
      if (ts >? l_maxTimestamp st)%Z then ts else l_maxTimestamp st in
    let name := marshalMetricName (Metric row) (Labels row) in
    let '(m1, mt) := getMetric m name in
    mt' ← insertPoint mt (mkDataPoint ts (Value (RowDataPoint row)));
    Some (mkLoop (set_metrics m1 (<[name := mt']> (metrics m1)))
            (l_outdated st) maxTs (wrap64 (l_rowsNum st + 1))).

Fixpoint insertRows_loop (now : nat → Time) (i : nat) rows (st : loopState)
  : option loopState :=
  match rows with
  | [] => Some st
  | row :: rows' =>
      st' ← insertRow now i row st;
      insertRows_loop now (S i) rows' st'
  end.

(** [insertRows]: the partition after the call, the rows returned, and the
    error returned; [None] is a panic. *)
Definition insertRows m rows (now : nat → Time)
  : option (memoryPartition T W * list (Row T) * option error) :=
  match rows with
  | [] => Some (m, [], Some "no rows given")
  | row0 :: _ =>
      let '(w', err) := append (wal_ m) operationInsert rows in
      let m0 := mkPartition (numPoints m) (minT m) (maxT m) (metrics m) w'
                  (partitionDuration m) (timestampPrecision m) (once m) in
      match err with
      | Some e => Some (m0, [], Some ("failed to write to WAL: " +:+ e))
      | None =>
          (* Set min timestamp at only first. *)
          let m1 := once_do m0 row0 rows in
          st ← insertRows_loop now 0 rows (mkLoop m1 [] (rowTimestamp row0) 0);
          let m2 := l_part st in
          let m3 := mkPartition (addInt64 (numPoints m2) (l_rowsNum st))
                      (minT m2) (maxT m2) (metrics m2) (wal_ m2)
                      (partitionDuration m2) (timestampPrecision m2) (once m2) in
          (* Make max timestamp up-to-date. *)
          let m4 :=
            if (maxT m3 <? l_maxTimestamp st)%Z then
              mkPartition (numPoints m3) (minT m3) (l_maxTimestamp st)
                (metrics m3) (wal_ m3) (partitionDuration m3)
                (timestampPrecision m3) (once m3)
            else m3 in
          Some (m4, l_outdated st, None)
      end
  end.

(** [selectDataPoints]: the partition after the call, the points and the
    error returned; [None] is a panic. *)
Definition selectDataPoints m (metric : string) (labels : list Label)
    (start end_ : Z)
  : option (memoryPartition T W * list (DataPoint T) * option error) :=
  let name := marshalMetricName metric labels in
  let '(m1, mt) := getMetric m name in
  pts ← selectPoints mt start end_;
  Some (m1, pts, None).


(** *** Invariant and specification of a batch *)

Definition fresh_metric (name : string) : memoryMetric T :=
  mkMetric name 0 0 0 [] [].

(** A row is outdated when its timestamp is below the latched minimum. *)
Definition outdated (mn : Z) (row : Row T) : Prop :=
  (rowTimestamp row < mn)%Z.

#[global] Instance outdated_dec mn row : Decision (outdated mn row).
Proof. unfold outdated. apply _. Defined.

(** The rows of a batch that are not outdated, in batch order, each as the
    name of its series and the point stored for it: the row's own timestamp,
    or the clock's when that is zero.  [i] is the index of the first row. *)
Fixpoint stored (mn : Z) (precision : TimestampPrecision) (now : nat → Time)
    (i : nat) rows : list (string * DataPoint T) :=
  match rows with
  | [] => []
  | row :: rows' =>
      if decide (outdated mn row) then stored mn precision now (S i) rows'
      else
        (marshalMetricName (Metric row) (Labels row),
         mkDataPoint
           (if (rowTimestamp row =? 0)%Z then toUnix (now i) precision
            else rowTimestamp row)
           (Value (RowDataPoint row)))
        :: stored mn precision now (S i) rows'
  end.

(** One point into the series of its name, created when absent. *)
Definition store_point (ms : gmap string (memoryMetric T))
    (np : string * DataPoint T) : option (gmap string (memoryMetric T)) :=
  mt' ← insertPoint (default (fresh_metric np.1) (ms !! np.1)) np.2;
  Some (<[np.1 := mt']> ms).

Fixpoint store_all (ms : gmap string (memoryMetric T))
    (nps : list (string * DataPoint T))
  : option (gmap string (memoryMetric T)) :=
  match nps with
  | [] => Some ms
  | np :: nps' => ms' ← store_point ms np; store_all ms' nps'
  end.

(** The greatest of [a] and the integers of [l]. *)
Definition max_list (a : Z) (l : list Z) : Z := foldl Z.max a l.

(** [x] is the least timestamp of the rows of a batch. *)
Definition least_timestamp rows (x : Z) : Prop :=
  (∃ row, row ∈ rows ∧ rowTimestamp row = x) ∧
  ∀ row, row ∈ rows → (x <= rowTimestamp row)%Z.

(** A call passes the WAL step: the batch has a row and [wal.append]
    returns nil. *)
Definition passes m rows : Prop :=
  rows ≠ [] ∧ (append (wal_ m) operationInsert rows).2 = None.

#[global] Instance passes_dec m rows : Decision (passes m rows).
Proof. unfold passes. apply _. Defined.

(** The invariant of a memory partition: [maxT] is never negative, the
    latched [minT] is at most [maxT], every series has the series invariant
    and no more points than the partition counts. *)
Record part_inv m : Prop := {
  pi_maxT : (0 <= maxT m)%Z;
  pi_latched : once m = true → (minT m <= maxT m)%Z;
  pi_unlatched : once m = false → minT m = 0%Z;
  pi_numPoints : (0 <= numPoints m)%Z;
  pi_series : ∀ name mt, metrics m !! name = Some mt →
    series_inv mt ∧ (Metric.size mt <= numPoints m)%Z
}.

(** A sequence of [insertRows] calls: each with its batch and its clock. *)
Fixpoint run_inserts m (cs : list (list (Row T) * (nat → Time)))
  : option (memoryPartition T W) :=
  match cs with
  | [] => Some m
  | c :: cs' =>
      r ← insertRows m c.1 c.2;
      run_inserts r.1.1 cs'
  end.

(** The batch of the first call of the sequence that passes the WAL step. *)
Fixpoint first_passing m (cs : list (list (Row T) * (nat → Time)))
  : option (list (Row T)) :=
  match cs with
  | [] => None
  | c :: cs' =>
      if decide (passes m c.1) then Some c.1
      else r ← insertRows m c.1 c.2; first_passing r.1.1 cs'
  end.

End partition.

Arguments loopState : clear implicits.
Arguments mkLoop {T W} _ _ _ _.
Arguments l_part {T W} _.
Arguments l_outdated {T W} _.
Arguments l_maxTimestamp {T W} _.
Arguments l_rowsNum {T W} _.

End Partition.

(** ** The partition list *)

(** The interface [partition], as far as the list uses it: the list compares
    partitions by [minTimestamp()] and calls [clean()] on the one it removes.
    [clean] gives the error it returns ([None] is nil). *)
Class partition (P : Type) := {
  minTimestamp : P → Z;
  clean : P → option error
}.

(** [fakePartition] of the tests. *)
Record fakePartition := mkFake {
  f_minT : Z;
  f_maxT : Z;
  f_numPoints : Z;
  IsActive : bool;
  f_err : option error
}.

#[global] Instance fakePartition_partition : partition fakePartition := {
  minTimestamp f := f_minT f;
  clean _ := None
}.

#[global] Instance memoryPartition_partition {T W}
  : partition (Partition.memoryPartition T W) := {
  minTimestamp := Partition.minTimestamp;
  clean := Partition.clean
}.

(** Modelled from the spec: the disk partition ([disk_partition.go] is not
    among the sources).  The spec gives it a [minTimestamp] read from its
    metadata and a [clean()] that unmaps and deletes its files; the error
    that file-system action returns is a field here. *)
Record diskPartition := mkDisk {
  d_minTimestamp : Z;
  d_cleanResult : option error
}.

#[global] Instance diskPartition_partition : partition diskPartition := {
  minTimestamp := d_minTimestamp;
  clean := d_cleanResult
}.

Definition samePartitions {P} `{!partition P} (x y : P) : bool :=
  (minTimestamp x =? minTimestamp y)%Z.

Module PartitionList.

(** A [*partitionNode]: an address of the heap of nodes; nil is [None]. *)
Definition loc : Type := positive.

Record partitionNode (P : Type) : Type := mkNode {
  (* val is immutable *)
  val : P;
  next : option loc
}.
Arguments mkNode {P} _ _.
Arguments val {P} _.
Arguments next {P} _.

(** The list ([partitionListImpl]) together with the heap its pointers
    point into, and the log of the partitions on which [clean()] was
    called, oldest first. *)
Record partitionListImpl (P : Type) : Type := mkList {
  numPartitions : Z;
  head : option loc;
  tail : option loc;
  nodes : gmap loc (partitionNode P);
  cleaned : list P
}.
Arguments mkList {P} _ _ _ _ _.
Arguments numPartitions {P} _.
Arguments head {P} _.
Arguments tail {P} _.
Arguments nodes {P} _.
Arguments cleaned {P} _.

(** The node an iterator is at: the dummy node [newIterator] puts in front
    of the head (a node outside the heap of the list, of which only [next]
    is ever read), a node of the list, or nil. *)
Inductive cursor :=
  | AtDummy (nxt : option loc)
  | AtNode (l : loc)
  | AtNil.

Section plist.
Context {P : Type} `{!partition P}.
Implicit Types (p : partitionListImpl P) (it : cursor).

Definition newPartitionList : partitionListImpl P := mkList 0 None None ∅ [].

Definition size p : Z := numPartitions p.

Definition setHead p (node : option loc) : partitionListImpl P :=
  mkList (numPartitions p) node (tail p) (nodes p) (cleaned p).

Definition setTail p (node : option loc) : partitionListImpl P :=
  mkList (numPartitions p) (head p) node (nodes p) (cleaned p).

(** [node.setNext(n)] through the pointer [l]. *)
Definition setNext p (l : loc) (n : option loc) : partitionListImpl P :=
  mkList (numPartitions p) (head p) (tail p)
    (alter (λ nd, mkNode (val nd) n) l (nodes p)) (cleaned p).

Definition addPartitions p (d : Z) : partitionListImpl P :=
  mkList (addInt64 (numPartitions p) d) (head p) (tail p) (nodes p) (cleaned p).

(** [&partitionNode{...}]: a node at an address not in use. *)
Definition alloc p (nd : partitionNode P) : partitionListImpl P * loc :=
  let l := fresh (dom (nodes p)) in
  (mkList (numPartitions p) (head p) (tail p) (<[l := nd]> (nodes p))
     (cleaned p), l).

Definition newIterator p : cursor := AtDummy (head p).

(** [iterator.next()]: the iterator moved and the boolean returned
    ([arrive]: [i.current = next; return i.current != nil]).  A pointer to
    no node of the heap does not exist in Go; the model stops ([None]) on
    one. *)
Definition arrive (nxt : option loc) : cursor * bool :=
  match nxt with
  | Some l => (AtNode l, true)
  | None => (AtNil, false)
  end.

Definition it_next p it : option (cursor * bool) :=
  match it with
  | AtNil => Some (AtNil, false)
  | AtDummy nxt => Some (arrive nxt)
  | AtNode l => nd ← nodes p !! l; Some (arrive (next nd))
  end.

(** [iterator.currentNode()], once the iterator has left the dummy node. *)
Definition currentNode it : option loc :=
  match it with
  | AtNode l => Some l
  | _ => None
  end.

(** [getHead]: nil ([Some None]) on an empty list; [p.head.value()]
    panics ([None]) on a nil head. *)
Definition getHead p : option (option P) :=
  if (size p <=? 0)%Z then Some None
  else l ← head p; nd ← nodes p !! l; Some (Some (val nd)).

Definition insert p (part : P) : partitionListImpl P :=
  let '(p1, node) := alloc p (mkNode part None) in
  let hd := head p1 in
  let p2 := match hd with
            | Some _ => setNext p1 node hd
            | None => p1
            end in
  addPartitions (setHead p2 (Some node)) 1.

(** The loop [for iterator.next() { ... }] of [remove], from an iterator
    and the [prev] node it has left behind.  A list that is a cycle would
    keep the source looping; the model returns [None] when its fuel is
    spent ([remove_fuel] gives the fuel that always suffices). *)
Fixpoint remove_loop (fuel : nat) p it (prev : option loc) (target : P)
  : option (partitionListImpl P * option error) :=
  match fuel with
  | O => None
  | S fuel' =>
      '(it1, more) ← it_next p it;
      if negb more then Some (p, Some "the given partition was not found")
      else
        current ← currentNode it1;
        nd ← nodes p !! current;
        if negb (samePartitions (val nd) target) then
          remove_loop fuel' p it1 (Some current) target
        else
          (* remove the current node. *)
          '(it2, _) ← it_next p it1;
          let nxt := currentNode it2 in
          let p1 :=
            match prev, nxt with
            | None, _ => setHead p nxt
            | Some pv, None => setTail (setNext p pv None) (Some pv)
            | Some pv, Some _ => setNext p pv nxt
            end in
          let p2 := addPartitions p1 (-1) in
          let p3 := mkList (numPartitions p2) (head p2) (tail p2) (nodes p2)
                      (cleaned p2 ++ [val nd]) in
          match clean (val nd) with
          | Some err =>
              Some (p3, Some ("failed to clean resources managed by partition to be removed: " +:+ err))
          | None => Some (p3, None)
          end
  end.

Definition remove (fuel : nat) p (target : P)
  : option (partitionListImpl P * option error) :=
  if (size p <=? 0)%Z then Some (p, Some "empty partition")
  else remove_loop fuel p (newIterator p) None target.

Fixpoint swap_loop (fuel : nat) p it (prev : option loc) (old new : P)
  : option (partitionListImpl P * option error) :=
  match fuel with
  | O => None
  | S fuel' =>
      '(it1, more) ← it_next p it;
      if negb more then Some (p, Some "the given partition was not found")
      else
        current ← currentNode it1;
        nd ← nodes p !! current;
        if negb (samePartitions (val nd) old) then
          swap_loop fuel' p it1 (Some current) old new
        else
          (* swap the current node. *)
          let '(p0, newNode) := alloc p (mkNode new (next nd)) in
          '(it2, _) ← it_next p0 it1;
          let nxt := currentNode it2 in
          let p1 :=
            match prev, nxt with
            | None, _ => setHead p0 (Some newNode)
            | Some pv, None =>
                setTail (setNext p0 pv (Some newNode)) (Some newNode)
            | Some pv, Some _ => setNext p0 pv (Some newNode)
            end in
          Some (p1, None)
  end.

Definition swap (fuel : nat) p (old new : P)
  : option (partitionListImpl P * option error) :=
  if (size p <=? 0)%Z then Some (p, Some "empty partition")
  else swap_loop fuel p (newIterator p) None old new.

(** *** What is reachable from the head *)

(** [segment ns h ls e]: following [next] from [h] visits exactly the nodes
    at [ls], in that order, and arrives at [e]. *)
Fixpoint segment (ns : gmap loc (partitionNode P)) (h : option loc)
    (ls : list loc) (e : option loc) : Prop :=
  match ls with
  | [] => h = e
  | l :: ls' =>
      h = Some l ∧ ∃ nd, ns !! l = Some nd ∧ segment ns (next nd) ls' e
  end.

(** [chain ns h ls]: the nodes reachable from [h] are those at [ls], the
    last of which points to nil. *)
Definition chain (ns : gmap loc (partitionNode P)) (h : option loc)
    (ls : list loc) : Prop :=
  segment ns h ls None.

(** The nodes reachable from [h], computed with fuel. *)
Fixpoint reachable (fuel : nat) (ns : gmap loc (partitionNode P))
    (h : option loc) : option (list loc) :=
  match h with
  | None => Some []
  | Some l =>
      match fuel with
      | O => None
      | S fuel' =>
          nd ← ns !! l;
          ls ← reachable fuel' ns (next nd);
          Some (l :: ls)
      end
  end.

(** The invariant of the specification: [size] counts the nodes reachable
    from the head, [tail] is the last of them, and head, tail and size
    agree on emptiness. *)
Definition list_inv p (ls : list loc) : Prop :=
  chain (nodes p) (head p) ls ∧
  size p = Z.of_nat (length ls) ∧
  tail p = last ls ∧
  (head p = None ↔ tail p = None) ∧
  (tail p = None ↔ size p = 0%Z).

(** The part of it that the three operations do maintain: [size] counts
    the nodes reachable from the head, all at different addresses. *)
Definition counted p (ls : list loc) : Prop :=
  chain (nodes p) (head p) ls ∧ NoDup ls ∧
  size p = Z.of_nat (length ls).

(** The node at [l] holds a partition that [samePartitions] identifies
    with [target]. *)
Definition holds (ns : gmap loc (partitionNode P)) (target : P) (l : loc)
  : Prop :=
  ∃ nd, ns !! l = Some nd ∧ minTimestamp (val nd) = minTimestamp target.

(** The first node of [ls] that holds [target], with the node before it
    ([prev] for the first of [ls]). *)
Fixpoint locate (ns : gmap loc (partitionNode P)) (target : P)
    (prev : option loc) (ls : list loc)
  : option (option loc * loc * partitionNode P) :=
  match ls with
  | [] => None
  | c :: ls' =>
      match ns !! c with
      | Some nd =>
          if samePartitions (val nd) target then Some (prev, c, nd)
          else locate ns target (Some c) ls'
      | None => None
      end
  end.

(** [remove]'s change to the list once it stands on the node [nd] to
    remove, [prev] behind it. *)
Definition unlink p (prev : option loc) (nd : partitionNode P)
  : partitionListImpl P :=
  let p1 :=
    match prev, next nd with
    | None, _ => setHead p (next nd)
    | Some pv, None => setTail (setNext p pv None) (Some pv)
    | Some pv, Some _ => setNext p pv (next nd)
    end in
  let p2 := addPartitions p1 (-1) in
  mkList (numPartitions p2) (head p2) (tail p2) (nodes p2)
    (cleaned p2 ++ [val nd]).

(** [swap]'s change to the list once it stands on the node [nd] to
    replace. *)
Definition splice p (prev : option loc) (nd : partitionNode P) (new : P)
  : partitionListImpl P :=
  let '(p0, newNode) := alloc p (mkNode new (next nd)) in
  match prev, next nd with
  | None, _ => setHead p0 (Some newNode)
  | Some pv, None => setTail (setNext p0 pv (Some newNode)) (Some newNode)
  | Some pv, Some _ => setNext p0 pv (Some newNode)
  end.

(** The operations of the list, for sequences of them. *)
Inductive op :=
  | OpInsert (part : P)
  | OpRemove (target : P)
  | OpSwap (old new : P).

Definition step (fuel : nat) p (o : op) : option (partitionListImpl P) :=
  match o with
  | OpInsert part => Some (insert p part)
  | OpRemove target => fst <$> remove fuel p target
  | OpSwap old new => fst <$> swap fuel p old new
  end.

Fixpoint run (fuel : nat) p (os : list op) : option (partitionListImpl P) :=
  match os with
  | [] => Some p
  | o :: os' => p' ← step fuel p o; run fuel p' os'
  end.

(** The partitions held by the nodes at [ls]. *)
Definition values (ns : gmap loc (partitionNode P)) (ls : list loc) : list P :=
  omap (λ l, val <$> ns !! l) ls.

End plist.

Arguments op : clear implicits.

End PartitionList.

(** ** Concrete inputs of the examples *)

Definition dp (t : Z) : DataPoint unit := mkDataPoint t tt.

(** The series of timestamps 1, 2, 3 that [insertPoint] builds. *)
Definition m123 : Metric.memoryMetric unit :=
  Metric.mkMetric "metric1" 3 1 3 [dp 1; dp 2; dp 3] [].

(** The series of [Test_memoryMetric_EncodeAllPoints_sorted]. *)
Definition m13_42 : Metric.memoryMetric unit :=
  Metric.mkMetric "" 0 0 0 [dp 1; dp 3] [dp 4; dp 2].

(** The encoder of [Test_memoryMetric_EncodeAllPoints_error], and one that
    encodes nothing and never fails. *)
Definition failingEncoder : Metric.fakeEncoder unit :=
  Metric.mkFakeEncoder (Some (λ _, Some "some error")) None.
Definition quietEncoder : Metric.fakeEncoder unit :=
  Metric.mkFakeEncoder None None.

(** A marshaller of metric names for the examples; on a row without
    labels it gives the metric name, as the rows of the test suite have
    it. *)
Definition marshalName (metric : string) (labels : list Label) : string :=
  foldl (λ acc l, acc +:+ "," +:+ Name l +:+ "=" +:+ LabelValue l)
    metric labels.

Definition row (metric : string) (t : Z) : Row unit := mkRow metric [] (dp t).

(** A clock stopped at 2020-09-13 12:26:40 UTC. *)
Definition clock0 : nat → Time :=
  λ _, mkTime 1600000000000000000 1600000000.

Definition zeroDuration : Duration := mkDuration 0 0 0 0.

(** [newMemoryPartition(nil, 0, "")] of the test suite. *)
Definition part0 : Partition.memoryPartition unit nopWAL :=
  Partition.newMemoryPartition None zeroDuration (OtherPrecision "").

(** A new partition on a log with room for [n] appends. *)
Definition part_quota (n : nat) : Partition.memoryPartition unit quotaWAL :=
  Partition.newMemoryPartition (Some n) zeroDuration (OtherPrecision "").

(** The partition a call leaves behind ([m] itself on a panic). *)
Definition after {W} `{!wal unit W} (m : Partition.memoryPartition unit W)
    (rows : list (Row unit)) : Partition.memoryPartition unit W :=
  match Partition.insertRows marshalName m rows clock0 with
  | Some (m', _, _) => m'
  | None => m
  end.

(** The partition of the test "insert out-of-order rows": one row of
    timestamp 2 has latched [minT]. *)
Definition part2 : Partition.memoryPartition unit nopWAL :=
  after part0 [row "metric1" 2].

(** The same on a log that had room for that one append only. *)
Definition part2_full : Partition.memoryPartition unit quotaWAL :=
  after (part_quota 1) [row "metric1" 2].

(** The partition of the test "select all points". *)
Definition part123 : Partition.memoryPartition unit nopWAL :=
  after part0 [row "metric1" 1; row "metric1" 2; row "metric1" 3].

(** The partitions of the list tests: a [fakePartition] of a given
    [minT]. *)
Definition fk (t : Z) : fakePartition := mkFake t 0 0 false None.

(** The list after [insert] of one partition into [newPartitionList()]. *)
Definition list1 : PartitionList.partitionListImpl fakePartition :=
  PartitionList.insert PartitionList.newPartitionList (fk 1).

(** The list after [insert] of the partitions 1, 2 and 3: 3 is the head. *)
Definition list321 : PartitionList.partitionListImpl fakePartition :=
  PartitionList.insert (PartitionList.insert list1 (fk 2)) (fk 3).


(** * Properties *)

(** ** Integers, slices and [sort.Search] *)

Lemma wrap64_id z : in_int64 z → wrap64 z = z.
Proof.
  unfold in_int64, min_int64, max_int64, wrap64. intros Hz.
  rewrite Z.mod_small; lia.
Qed.

Lemma index_Some {A} (s : list A) i x :
  index s i = Some x ↔ (0 <= i)%Z ∧ s !! Z.to_nat i = Some x.
Proof.
  unfold index. destruct (Z.ltb_spec i 0); split.
  - done.
  - intros [? _]. lia.
  - intros ?. split; [lia|done].
  - by intros [_ ?].
Qed.

Lemma index_of_nat {A} (s : list A) (k : nat) : index s (Z.of_nat k) = s !! k.
Proof.
  unfold index. destruct (Z.ltb_spec (Z.of_nat k) 0); [lia|].
  by rewrite Nat2Z.id.
Qed.

Lemma shiftr1_bounds i j :
  (i < j)%Z → (i <= Z.shiftr (i + j) 1 < j)%Z.
Proof.
  intros H. rewrite Z.shiftr_div_pow2 by lia. change (2 ^ 1)%Z with 2%Z.
  split; [apply Z.div_le_lower_bound | apply Z.div_lt_upper_bound]; lia.
Qed.

(** The loop of [sort.Search] on a closure that does not panic below [n]
    and is monotone there: it ends within [j - i] rounds at the least index
    at which the closure holds. *)
Lemma search_loop_spec (f : Z → option bool) (g : Z → bool) (n : Z) :
  (∀ k, (0 <= k < n)%Z → f k = Some (g k)) →
  (∀ k k', (0 <= k <= k')%Z → (k' < n)%Z → g k = true → g k' = true) →
  ∀ fuel i j,
    (0 <= i <= j)%Z → (j <= n)%Z →
    (∀ k, (0 <= k < i)%Z → g k = false) →
    (∀ k, (j <= k < n)%Z → g k = true) →
    (j - i <= Z.of_nat fuel)%Z →
    ∃ r, search_loop fuel f i j = Some r ∧ (i <= r <= j)%Z ∧
         (∀ k, (0 <= k < r)%Z → g k = false) ∧
         (∀ k, (r <= k < n)%Z → g k = true).
Proof.
  intros Hf Hmono. induction fuel as [|fuel IH]; intros i j Hij Hjn Hlo Hhi Hfuel.
  - exists i. simpl. destruct (Z.ltb_spec i j); [lia|].
    assert (i = j) by lia. subst. repeat split; auto; lia.
  - simpl. destruct (Z.ltb_spec i j) as [Hlt|Hge].
    + pose proof (shiftr1_bounds i j ltac:(lia)) as Hh.
      set (h := Z.shiftr (i + j) 1) in *.
      rewrite Hf by lia. simpl. destruct (g h) eqn:Hgh; simpl.
      * destruct (IH i h) as (r & Hr & Hb & Hl & Hu); try lia; auto.
        { intros k Hk. apply (Hmono h k); auto; lia. }
        exists r. repeat split; auto; lia.
      * destruct (IH (h + 1)%Z j) as (r & Hr & Hb & Hl & Hu); try lia; auto.
        { intros k Hk. destruct (g k) eqn:Hgk; [|done].
          rewrite (Hmono k h) in Hgh; [done|lia|lia|done]. }
        exists r. repeat split; auto; lia.
    + exists i. assert (i = j) by lia. subst. repeat split; auto; lia.
Qed.

Lemma Search_spec (f : Z → option bool) (g : Z → bool) (n : Z) :
  (∀ k, (0 <= k < n)%Z → f k = Some (g k)) →
  (∀ k k', (0 <= k <= k')%Z → (k' < n)%Z → g k = true → g k' = true) →
  (0 <= n)%Z →
  ∃ r, Search n f = Some r ∧ (0 <= r <= n)%Z ∧
       (∀ k, (0 <= k < r)%Z → g k = false) ∧
       (∀ k, (r <= k < n)%Z → g k = true).
Proof.
  intros Hf Hmono Hn. unfold Search.
  apply (search_loop_spec f g n Hf Hmono); try lia.
Qed.

(** The fuel of [Search] is enough whatever the closure answers: the loop
    gives no result only when the closure panics. *)
Lemma search_fuel (f : Z → option bool) :
  ∀ fuel i j,
    (j - i <= Z.of_nat fuel)%Z →
    search_loop fuel f i j = None →
    ∃ h, (i <= h < j)%Z ∧ f h = None.
Proof.
  induction fuel as [|fuel IH]; intros i j Hfuel; simpl.
  - destruct (Z.ltb_spec i j); [lia|done].
  - destruct (Z.ltb_spec i j) as [Hlt|]; [|done].
    pose proof (shiftr1_bounds i j ltac:(lia)) as Hh.
    set (h := Z.shiftr (i + j) 1) in *.
    destruct (f h) as [b|] eqn:Hfh; simpl;
      [|intros _; exists h; split; [lia|done]].
    destruct b; simpl; intros Hnone.
    + destruct (IH i h ltac:(lia) Hnone) as (h' & ? & ?).
      exists h'. split; [lia|done].
    + destruct (IH (h + 1)%Z j ltac:(lia) Hnone) as (h' & ? & ?).
      exists h'. split; [lia|done].
Qed.

(** A slice cut where a decidable property stops holding is the filter. *)
Lemma filter_take_boundary {A} (Q : A → Prop) `{!∀ x, Decision (Q x)}
    (l : list A) (r : nat) :
  (∀ k a, l !! k = Some a → (k < r)%nat → Q a) →
  (∀ k a, l !! k = Some a → (r <= k)%nat → ¬ Q a) →
  filter Q l = take r l.
Proof.
  revert r. induction l as [|x l IH]; intros r Hlo Hhi; [by destruct r|].
  destruct r as [|r].
  - rewrite filter_cons_False; [|by apply (Hhi 0%nat); [|lia]].
    rewrite (IH 0%nat); [done| |].
    + intros k a _ Hk. lia.
    + intros k a Hka _. apply (Hhi (S k)); [done|lia].
  - rewrite filter_cons_True; [|by apply (Hlo 0%nat); [|lia]].
    simpl. f_equal. apply IH.
    + intros k a Hka Hk. apply (Hlo (S k)); [done|lia].
    + intros k a Hka Hk. apply (Hhi (S k)); [done|lia].
Qed.

Lemma filter_drop_boundary {A} (Q : A → Prop) `{!∀ x, Decision (Q x)}
    (l : list A) (r : nat) :
  (∀ k a, l !! k = Some a → (k < r)%nat → ¬ Q a) →
  (∀ k a, l !! k = Some a → (r <= k)%nat → Q a) →
  filter Q l = drop r l.
Proof.
  revert r. induction l as [|x l IH]; intros r Hlo Hhi; [by destruct r|].
  destruct r as [|r].
  - rewrite filter_cons_True; [|by apply (Hhi 0%nat); [|lia]].
    simpl. f_equal. rewrite (IH 0%nat); [by rewrite drop_0| |].
    + intros k a _ Hk. lia.
    + intros k a Hka _. apply (Hhi (S k)); [done|lia].
  - rewrite filter_cons_False; [|by apply (Hlo 0%nat); [|lia]].
    simpl. apply IH.
    + intros k a Hka Hk. apply (Hlo (S k)); [done|lia].
    + intros k a Hka Hk. apply (Hhi (S k)); [done|lia].
Qed.

(** ** The memory series *)

Section metric_facts.
Import Metric.
Context {T : Type}.
Implicit Types (m : memoryMetric T) (p point : DataPoint T).

Lemma ascending_snoc (l : list (DataPoint T)) point :
  ascending l →
  (∀ q, last l = Some q → (Timestamp q <= Timestamp point)%Z) →
  ascending (l ++ [point]).
Proof.
  unfold ascending. intros Hl Hlast. rewrite fmap_app. simpl.
  apply Sorted_snoc; [done|].
  destruct l as [|x l _] using rev_ind; [constructor|].
  rewrite fmap_app. simpl. constructor. apply Hlast, last_snoc.
Qed.

Lemma ascending_strongly (l : list (DataPoint T)) :
  ascending l → StronglySorted ts_le l.
Proof.
  unfold ascending. intros Hl.
  apply Sorted_StronglySorted in Hl; [|apply _].
  induction l as [|x l IH]; [constructor|].
  simpl in Hl. apply StronglySorted_inv in Hl as [Hl Hx].
  constructor; [by apply IH|].
  apply Forall_forall. intros y Hy. unfold ts_le.
  rewrite Forall_forall in Hx. apply Hx. by apply list_elem_of_fmap_2.
Qed.

(** In an ascending list the timestamps grow with the index. *)
Lemma ascending_lookup (l : list (DataPoint T)) (i j : nat) p q :
  ascending l → l !! i = Some p → l !! j = Some q → (i <= j)%nat →
  (Timestamp p <= Timestamp q)%Z.
Proof.
  intros Hl%ascending_strongly. revert i j.
  induction Hl as [|x l Hl IH Hx]; intros i j Hi Hj Hij; [done|].
  destruct i as [|i], j as [|j]; simpl in *; simplify_eq; try lia.
  - rewrite Forall_forall in Hx. apply Hx. by eapply list_elem_of_lookup_2.
  - eapply IH; eauto. lia.
Qed.

Lemma index_last (l : list (DataPoint T)) :
  l ≠ [] → index l (Z.of_nat (length l) - 1) = last l.
Proof.
  intros Hl. rewrite last_lookup.
  destruct l as [|x l]; [done|]. simpl length.
  replace (Z.of_nat (S (length l)) - 1)%Z with (Z.of_nat (length l)) by lia.
  by rewrite index_of_nat.
Qed.

(** [insertPoint] on a series with the invariant. *)
Lemma insertPoint_spec m point :
  series_inv m →
  (size m < max_int64)%Z →
  ∃ m', insertPoint m point = Some m' ∧
    series_inv m' ∧
    (size m <= size m' <= size m + 1)%Z ∧
    (∀ q, last (points m) = Some q →
          (Timestamp point <= Timestamp q)%Z →
          outOfOrderPoints m' = outOfOrderPoints m ++ [point] ∧
          points m' = points m ∧
          minTimestamp m' = minTimestamp m ∧
          maxTimestamp m' = maxTimestamp m ∧
          size m' = size m) ∧
    ((∀ q, last (points m) = Some q → (Timestamp q < Timestamp point)%Z) →
          points m' = points m ++ [point] ∧
          outOfOrderPoints m' = outOfOrderPoints m ∧
          maxTimestamp m' = Timestamp point ∧
          size m' = (size m + 1)%Z).
Proof.
  intros [Hsize Hasc Hmin Hmax] Hbound. unfold insertPoint.
  assert (Hadd : addInt64 (size m) 1 = (size m + 1)%Z).
  { apply wrap64_id. unfold in_int64, min_int64, max_int64 in *. lia. }
  destruct (Z.eqb_spec (size m) 0) as [Hz|Hnz].
  - (* First insertion *)
    assert (Hnil : points m = []).
    { apply length_zero_iff_nil. lia. }
    eexists. split; [done|]. rewrite Hnil. simpl.
    split; [|split; [rewrite Hadd; lia|split; [done|by rewrite Hadd]]].
    split; simpl.
    + rewrite Hadd. lia.
    + unfold ascending. simpl. repeat constructor.
    + by intros ? [= <-].
    + by intros ? [= <-].
  - assert (Hne : points m ≠ []).
    { intros Hnil. rewrite Hnil in Hsize. simpl in Hsize. lia. }
    assert (Hidx : index (points m) (size m - 1) = last (points m)).
    { rewrite Hsize. by apply index_last. }
    rewrite Hidx.
    destruct (last (points m)) as [q|] eqn:Hlast;
      [|by apply last_None in Hlast].
    simpl. destruct (Z.ltb_spec (Timestamp q) (Timestamp point)) as [Hlt|Hge].
    + (* Insert point in order *)
      eexists. split; [done|]. simpl. split; [|split; [rewrite Hadd; lia|split]].
      * split; simpl.
        -- rewrite Hadd, length_app. simpl. lia.
        -- apply ascending_snoc; [done|]. intros q' ?. simplify_eq. lia.
        -- intros p. destruct (points m) as [|x l] eqn:Hpts; [done|].
           simpl. intros [= <-]. by apply Hmin; rewrite ?Hpts.
        -- intros p. rewrite last_snoc. by intros [= <-].
      * intros q' [= <-] ?. lia.
      * intros _. by rewrite Hadd.
    + (* out of order *)
      eexists. split; [done|]. simpl. split; [|split; [lia|split]].
      * split; simpl; [done..|]. by rewrite Hlast.
      * by intros q' [= <-] _.
      * intros Hq. specialize (Hq q eq_refl). lia.
Qed.

(** C6: [insertPoint] preserves the series invariant ([points] ascending,
    [size] its length, [minTimestamp] and [maxTimestamp] the timestamps of the
    first and the last point); a point whose timestamp is not strictly
    greater than that of the last in-order point is appended to
    [outOfOrderPoints] and leaves [points], [minTimestamp] and
    [maxTimestamp] as they were; any other point is appended to [points].
    The bound on [size] is that of every Go slice: the counter does not
    wrap. *)
Theorem insertPoint_preserves_invariant m point :
  series_inv m →
  (size m < max_int64)%Z →
  ∃ m', insertPoint m point = Some m' ∧
    series_inv m' ∧
    (∀ q, last (points m) = Some q →
          (Timestamp point <= Timestamp q)%Z →
          outOfOrderPoints m' = outOfOrderPoints m ++ [point] ∧
          points m' = points m ∧
          minTimestamp m' = minTimestamp m ∧
          maxTimestamp m' = maxTimestamp m ∧
          size m' = size m) ∧
    ((∀ q, last (points m) = Some q → (Timestamp q < Timestamp point)%Z) →
          points m' = points m ++ [point] ∧
          outOfOrderPoints m' = outOfOrderPoints m ∧
          maxTimestamp m' = Timestamp point ∧
          size m' = (size m + 1)%Z).
Proof.
  intros Hinv Hbound.
  destruct (insertPoint_spec m point Hinv Hbound)
    as (m' & Hm' & Hinv' & _ & Hooo & Hin).
  by exists m'.
Qed.


Lemma Search_boundary (l : list (DataPoint T)) (x : Z) :
  ascending l →
  ∃ r, Search (Z.of_nat (length l))
         (λ i, p ← index l i; Some (Timestamp p >=? x)%Z) = Some r ∧
       boundary l x r.
Proof.
  intros Hl.
  set (g := λ k : Z, match l !! Z.to_nat k with
                     | Some p => (Timestamp p >=? x)%Z
                     | None => false
                     end).
  destruct (Search_spec
              (λ i, p ← index l i; Some (Timestamp p >=? x)%Z) g
              (Z.of_nat (length l))) as (r & Hr & Hb & Hlo & Hhi).
  - intros k Hk. unfold g, index.
    destruct (Z.ltb_spec k 0); [lia|].
    destruct (lookup_lt_is_Some_2 l (Z.to_nat k)) as [p Hp]; [lia|].
    by rewrite Hp.
  - intros k k' Hk Hk'. unfold g.
    destruct (lookup_lt_is_Some_2 l (Z.to_nat k)) as [p Hp]; [lia|].
    destruct (lookup_lt_is_Some_2 l (Z.to_nat k')) as [q Hq]; [lia|].
    rewrite Hp, Hq. intros Hge.
    pose proof (ascending_lookup l _ _ p q Hl Hp Hq ltac:(lia)). lia.
  - lia.
  - exists r. split; [done|]. split; [done|]. intros k p Hkp.
    pose proof (lookup_lt_Some _ _ _ Hkp) as Hlt. split; intros Hk.
    + specialize (Hlo (Z.of_nat k) ltac:(lia)). unfold g in Hlo.
      rewrite Nat2Z.id, Hkp in Hlo. lia.
    + specialize (Hhi (Z.of_nat k) ltac:(lia)). unfold g in Hhi.
      rewrite Nat2Z.id, Hkp in Hhi. lia.
Qed.

Lemma boundary_le (l : list (DataPoint T)) x y r s :
  boundary l x r → boundary l y s → (x <= y)%Z → (r <= s)%Z.
Proof.
  intros [Hr Hx] [Hs Hy] Hxy.
  destruct (Z.le_gt_cases r s) as [|Hgt]; [done|exfalso].
  destruct (lookup_lt_is_Some_2 l (Z.to_nat s)) as [p Hp]; [lia|].
  destruct (Hx _ _ Hp) as [H1 _]. destruct (Hy _ _ Hp) as [_ H2].
  specialize (H1 ltac:(lia)). specialize (H2 ltac:(lia)). lia.
Qed.

(** The slice between the two boundaries is the window. *)
Lemma slice_boundaries (l : list (DataPoint T)) start end_ s e :
  boundary l start s → boundary l end_ e → (s <= e)%Z →
  slice l s e = Some (filter (in_window start end_) l).
Proof.
  intros [Hs Hstart] [He Hend] Hse. unfold slice.
  destruct (Z.leb_spec 0 s); [|lia]. destruct (Z.leb_spec s e); [|lia].
  destruct (Z.leb_spec e (Z.of_nat (length l))); [|lia]. simpl. f_equal.
  rewrite <-(take_drop (Z.to_nat s) l) at 2. rewrite filter_app.
  rewrite (filter_take_boundary _ (take (Z.to_nat s) l) 0%nat).
  - rewrite take_0. simpl.
    symmetry. apply filter_take_boundary.
    + intros k p Hkp Hk. rewrite lookup_drop in Hkp.
      destruct (Hstart _ _ Hkp) as [_ Ha]. destruct (Hend _ _ Hkp) as [Hb _].
      unfold in_window. split; [apply Ha|apply Hb]; lia.
    + intros k p Hkp Hk. rewrite lookup_drop in Hkp.
      destruct (Hend _ _ Hkp) as [_ Hb]. unfold in_window.
      specialize (Hb ltac:(lia)). lia.
  - intros k p _ Hk. lia.
  - intros k p Hkp _. apply lookup_take_Some in Hkp as [Hkp Hk].
    destruct (Hstart _ _ Hkp) as [Ha _]. unfold in_window.
    specialize (Ha ltac:(lia)). lia.
Qed.

(** Every point lies between [minTimestamp] and [maxTimestamp]. *)
Lemma series_inv_bounds m (k : nat) p :
  series_inv m → points m !! k = Some p →
  (minTimestamp m <= Timestamp p <= maxTimestamp m)%Z.
Proof.
  intros [Hsize Hasc Hmin Hmax] Hkp.
  pose proof (lookup_lt_Some _ _ _ Hkp) as Hlt. split.
  - destruct (points m) as [|x l] eqn:Hpts; [done|].
    rewrite (Hmin x eq_refl).
    apply (ascending_lookup (x :: l) 0 k x p); auto. lia.
  - destruct (last (points m)) as [q|] eqn:Hlast.
    + rewrite (Hmax q eq_refl). rewrite last_lookup in Hlast.
      apply (ascending_lookup (points m) k (pred (length (points m))) p q);
        auto. lia.
    + apply last_None in Hlast. by rewrite Hlast in Hkp.
Qed.

(** What [selectPoints] does compute: on a series with the invariant, a
    window that is not inverted and does not end exactly at [maxTimestamp]
    is answered with its points, in order. *)
Lemma selectPoints_window m start end_ :
  series_inv m → (start <= end_)%Z → end_ ≠ maxTimestamp m →
  selectPoints m start end_ = Some (filter (in_window start end_) (points m)).
Proof.
  intros Hinv Hse Hmax. pose proof Hinv as [Hsize Hasc _ _].
  unfold selectPoints.
  destruct (Z.leb_spec end_ (minTimestamp m)) as [Hle|Hgt].
  { f_equal. symmetry. apply (filter_take_boundary _ _ 0%nat); [lia|].
    intros k p Hkp _. unfold in_window.
    pose proof (series_inv_bounds m k p Hinv Hkp). lia. }
  assert (∃ s, (if (start <=? minTimestamp m)%Z then Some 0%Z
                else Search (size m)
                       (λ i, p ← index (points m) i;
                             Some (Timestamp p >=? start)%Z)) = Some s ∧
               boundary (points m) start s) as (s & -> & Hs).
  { destruct (Z.leb_spec start (minTimestamp m)).
    - exists 0%Z. split; [done|]. split; [lia|]. intros k p Hkp.
      pose proof (series_inv_bounds m k p Hinv Hkp). lia.
    - rewrite Hsize. by apply Search_boundary. }
  assert (∃ e, (if (end_ >=? maxTimestamp m)%Z then Some (size m)
                else Search (size m)
                       (λ i, p ← index (points m) i;
                             Some (Timestamp p >=? end_)%Z)) = Some e ∧
               boundary (points m) end_ e) as (e & -> & He).
  { destruct (Z.geb_spec end_ (maxTimestamp m)).
    - exists (size m). split; [done|]. rewrite Hsize. split; [lia|].
      intros k p Hkp. pose proof (series_inv_bounds m k p Hinv Hkp).
      pose proof (lookup_lt_Some _ _ _ Hkp). lia.
    - rewrite Hsize. by apply Search_boundary. }
  simpl. apply slice_boundaries; [done..|]. by eapply boundary_le.
Qed.

Lemma filter_agree {A} (Q1 Q2 : A → Prop)
    `{!∀ x, Decision (Q1 x)} `{!∀ x, Decision (Q2 x)} (l : list A) :
  (∀ x, x ∈ l → Q1 x ↔ Q2 x) → filter Q1 l = filter Q2 l.
Proof.
  induction l as [|x l IH]; intros Hag; [done|].
  assert (Hx := Hag x (list_elem_of_here _ _)).
  assert (IH' := IH (λ y Hy, Hag y (list_elem_of_further _ _ _ Hy))).
  destruct (decide (Q1 x)) as [H1|H1].
  - rewrite !filter_cons_True by tauto. by f_equal.
  - rewrite !filter_cons_False by tauto. done.
Qed.

(** What [selectPoints] computes on every window that is not inverted: it
    returns, and beyond the points of the window it returns those of
    timestamp [end_] and more whenever [end_ >= maxTimestamp]. *)
Lemma selectPoints_ordered_window m start end_ :
  series_inv m → (start <= end_)%Z →
  selectPoints m start end_ =
    Some (if decide (end_ <= minTimestamp m)%Z then []
          else filter (selected m start end_) (points m)).
Proof.
  intros Hinv Hse. pose proof Hinv as [Hsize Hasc _ _].
  destruct (Z.geb_spec end_ (maxTimestamp m)) as [Hge|Hlt].
  2:{ destruct (decide (end_ = maxTimestamp m)) as [->|Hne]; [lia|].
      rewrite (selectPoints_window m start end_ Hinv Hse Hne). f_equal.
      destruct (decide (end_ <= minTimestamp m)%Z) as [Hle|Hgt].
      - apply (filter_take_boundary _ _ 0%nat); [lia|].
        intros k p Hkp _. unfold in_window.
        pose proof (series_inv_bounds m k p Hinv Hkp). lia.
      - apply filter_agree. intros p Hp. unfold in_window, selected. lia. }
  unfold selectPoints.
  destruct (Z.leb_spec end_ (minTimestamp m)) as [Hle|Hgt].
  { by destruct (decide _). }
  destruct (decide _) as [?|_]; [lia|].
  assert (∃ s, (if (start <=? minTimestamp m)%Z then Some 0%Z
                else Search (size m)
                       (λ i, p ← index (points m) i;
                             Some (Timestamp p >=? start)%Z)) = Some s ∧
               boundary (points m) start s) as (s & -> & Hs).
  { destruct (Z.leb_spec start (minTimestamp m)).
    - exists 0%Z. split; [done|]. split; [lia|]. intros k p Hkp.
      pose proof (series_inv_bounds m k p Hinv Hkp). lia.
    - rewrite Hsize. by apply Search_boundary. }
  destruct (Z.geb_spec end_ (maxTimestamp m)) as [_|?]; [|lia]. simpl.
  assert (He : boundary (points m) (maxTimestamp m + 1) (size m)).
  { rewrite Hsize. split; [lia|]. intros k p Hkp.
    pose proof (series_inv_bounds m k p Hinv Hkp).
    pose proof (lookup_lt_Some _ _ _ Hkp). lia. }
  rewrite (slice_boundaries (points m) start (maxTimestamp m + 1) s (size m)
             Hs He); [|destruct Hs, He; lia].
  f_equal. apply filter_agree. intros p Hp.
  apply list_elem_of_lookup in Hp as [k Hkp].
  pose proof (series_inv_bounds m k p Hinv Hkp).
  unfold in_window, selected. lia.
Qed.

End metric_facts.

(** ** The flush of a series: [encodeAllPoints] *)

Section encode_facts.
Import Metric.
Context {T : Type}.
Implicit Types (ooo pts : list (DataPoint T)) (cs : list (origin * DataPoint T)).

Lemma merged_nil_l pts : merged [] pts = (λ p, (FromPoints, p)) <$> pts.
Proof. by destruct pts. Qed.

Lemma merged_nil_r ooo : merged ooo [] = (λ o, (FromOutOfOrder, o)) <$> ooo.
Proof. by destruct ooo. Qed.

Lemma merged_cons o ooo p pts :
  merged (o :: ooo) (p :: pts) =
  if (Timestamp o <? Timestamp p)%Z
  then (FromOutOfOrder, o) :: merged ooo (p :: pts)
  else (FromPoints, p) :: merged (o :: ooo) pts.
Proof. done. Qed.

(** Induction along the run of the two-pointer loop. *)
Lemma merged_ind (Q : list (DataPoint T) → list (DataPoint T) → Prop) :
  (∀ pts, Q [] pts) →
  (∀ o ooo, Q (o :: ooo) []) →
  (∀ o ooo p pts, (Timestamp o < Timestamp p)%Z →
     Q ooo (p :: pts) → Q (o :: ooo) (p :: pts)) →
  (∀ o ooo p pts, (Timestamp p <= Timestamp o)%Z →
     Q (o :: ooo) pts → Q (o :: ooo) (p :: pts)) →
  ∀ ooo pts, Q ooo pts.
Proof.
  intros Hnil_l Hnil_r Hlt Hge.
  induction ooo as [|o ooo IH]; [done|].
  induction pts as [|p pts IHp]; [done|].
  destruct (Z.lt_ge_cases (Timestamp o) (Timestamp p)); [by apply Hlt|].
  by apply Hge.
Qed.

Lemma merged_points ooo pts :
  (filter (λ c, c.1 = FromPoints) (merged ooo pts)).*2 = pts.
Proof.
  revert ooo pts. apply merged_ind.
  - intros pts. rewrite merged_nil_l.
    induction pts as [|p pts IH]; [done|]. rewrite fmap_cons.
    rewrite filter_cons_True by done. by rewrite fmap_cons, IH.
  - intros o ooo. rewrite merged_nil_r. generalize (o :: ooo). intros l.
    induction l as [|x l IH]; [done|]. rewrite fmap_cons.
    by rewrite filter_cons_False.
  - intros o ooo p pts Hlt IH. rewrite merged_cons.
    destruct (Z.ltb_spec (Timestamp o) (Timestamp p)); [|lia].
    by rewrite filter_cons_False.
  - intros o ooo p pts Hge IH. rewrite merged_cons.
    destruct (Z.ltb_spec (Timestamp o) (Timestamp p)); [lia|].
    rewrite filter_cons_True by done. by rewrite fmap_cons, IH.
Qed.

Lemma merged_ooo ooo pts :
  (filter (λ c, c.1 = FromOutOfOrder) (merged ooo pts)).*2 = ooo.
Proof.
  revert ooo pts. apply merged_ind.
  - intros pts. rewrite merged_nil_l.
    induction pts as [|p pts IH]; [done|]. rewrite fmap_cons.
    by rewrite filter_cons_False.
  - intros o ooo. rewrite merged_nil_r. generalize (o :: ooo). intros l.
    induction l as [|x l IH]; [done|]. rewrite fmap_cons.
    rewrite filter_cons_True by done. by rewrite fmap_cons, IH.
  - intros o ooo p pts Hlt IH. rewrite merged_cons.
    destruct (Z.ltb_spec (Timestamp o) (Timestamp p)); [|lia].
    rewrite filter_cons_True by done. by rewrite fmap_cons, IH.
  - intros o ooo p pts Hge IH. rewrite merged_cons.
    destruct (Z.ltb_spec (Timestamp o) (Timestamp p)); [lia|].
    by rewrite filter_cons_False.
Qed.

Lemma merged_perm ooo pts : (merged ooo pts).*2 ≡ₚ pts ++ ooo.
Proof.
  revert ooo pts. apply merged_ind.
  - intros pts. rewrite merged_nil_l, app_nil_r, <-list_fmap_compose.
    simpl. by rewrite list_fmap_id.
  - intros o ooo. rewrite merged_nil_r, <-list_fmap_compose.
    simpl. by rewrite list_fmap_id.
  - intros o ooo p pts Hlt IH. rewrite merged_cons.
    destruct (Z.ltb_spec (Timestamp o) (Timestamp p)); [|lia].
    rewrite fmap_cons, IH. simpl.
    by rewrite (Permutation_middle (p :: pts) ooo o).
  - intros o ooo p pts Hge IH. rewrite merged_cons.
    destruct (Z.ltb_spec (Timestamp o) (Timestamp p)); [lia|].
    rewrite fmap_cons, IH. done.
Qed.

Lemma merged_sorted ooo pts :
  StronglySorted ts_le ooo → StronglySorted ts_le pts →
  StronglySorted ts_le (merged ooo pts).*2.
Proof.
  revert ooo pts. apply (merged_ind (λ ooo pts,
    StronglySorted ts_le ooo → StronglySorted ts_le pts →
    StronglySorted ts_le (merged ooo pts).*2)).
  - intros pts _ Hp. rewrite merged_nil_l, <-list_fmap_compose.
    simpl. by rewrite list_fmap_id.
  - intros o ooo Ho _. rewrite merged_nil_r, <-list_fmap_compose.
    simpl. by rewrite list_fmap_id.
  - intros o ooo p pts Hlt IH Ho Hp. rewrite merged_cons.
    destruct (Z.ltb_spec (Timestamp o) (Timestamp p)); [|lia].
    rewrite fmap_cons.
    apply StronglySorted_inv in Ho as [Ho Ho']. constructor; [by apply IH|].
    rewrite merged_perm. apply Forall_app. split; [|done].
    pose proof Hp as [_ Hp']%StronglySorted_inv.
    constructor; [unfold ts_le; simpl; lia|].
    eapply Forall_impl; [exact Hp'|]. unfold ts_le. simpl. intros; lia.
  - intros o ooo p pts Hge IH Ho Hp. rewrite merged_cons.
    destruct (Z.ltb_spec (Timestamp o) (Timestamp p)); [lia|].
    rewrite fmap_cons.
    apply StronglySorted_inv in Hp as [Hp Hp']. constructor; [by apply IH|].
    rewrite merged_perm. apply Forall_app. split; [done|].
    pose proof Ho as [_ Ho']%StronglySorted_inv.
    constructor; [unfold ts_le; simpl; lia|].
    eapply Forall_impl; [exact Ho'|]. unfold ts_le. simpl. intros; lia.
Qed.

Lemma merged_from_points ooo pts p :
  (FromPoints, p) ∈ merged ooo pts → p ∈ pts.
Proof.
  intros Hin. rewrite <-(merged_points ooo pts).
  apply (list_elem_of_fmap_2 snd _ (FromPoints, p)).
  by apply list_elem_of_filter.
Qed.

(** An in-order point emitted after an out-of-order point has a strictly
    greater timestamp. *)
Lemma merged_later_points ooo pts :
  StronglySorted ts_le pts →
  ∀ l1 o l2 p,
    merged ooo pts = l1 ++ (FromOutOfOrder, o) :: l2 →
    (FromPoints, p) ∈ l2 → (Timestamp o < Timestamp p)%Z.
Proof.
  revert ooo pts. apply (merged_ind (λ ooo pts,
    StronglySorted ts_le pts → ∀ l1 o l2 p,
      merged ooo pts = l1 ++ (FromOutOfOrder, o) :: l2 →
      (FromPoints, p) ∈ l2 → (Timestamp o < Timestamp p)%Z)).
  - intros pts _ l1 o l2 p Heq _. exfalso.
    assert (Hin : (FromOutOfOrder, o) ∈ merged [] pts).
    { rewrite Heq. apply elem_of_app. right. left. }
    rewrite merged_nil_l in Hin. apply list_elem_of_fmap in Hin.
    by destruct Hin as (? & ? & ?).
  - intros o0 ooo _ l1 o l2 p Heq Hin. exfalso.
    assert (Hin' : (FromPoints, p) ∈ merged (o0 :: ooo) []).
    { rewrite Heq. apply elem_of_app. right. by right. }
    rewrite merged_nil_r in Hin'. apply list_elem_of_fmap in Hin'.
    by destruct Hin' as (? & ? & ?).
  - intros o0 ooo p0 pts Hlt IH Hp l1 o l2 p. rewrite merged_cons.
    destruct (Z.ltb_spec (Timestamp o0) (Timestamp p0)); [|lia].
    destruct l1 as [|c l1]; simpl; intros [= ? Heq] Hin.
    + subst o0 l2. apply merged_from_points in Hin.
      apply StronglySorted_inv in Hp as [_ Hp'].
      apply elem_of_cons in Hin as [->|Hin]; [done|].
      rewrite Forall_forall in Hp'. specialize (Hp' _ Hin).
      unfold ts_le in Hp'. lia.
    + by eapply IH.
  - intros o0 ooo p0 pts Hge IH Hp l1 o l2 p. rewrite merged_cons.
    destruct (Z.ltb_spec (Timestamp o0) (Timestamp p0)); [lia|].
    destruct l1 as [|c l1]; simpl; intros [= ? Heq] Hin.
    apply StronglySorted_inv in Hp as [Hp _]. by eapply IH.
Qed.

(** The merge is the order of the specification. *)
Lemma merged_flush_order ooo0 ooo pts :
  ooo ≡ₚ ooo0 → StronglySorted ts_le ooo → StronglySorted ts_le pts →
  flush_order pts ooo0 (merged ooo pts).
Proof.
  intros Hperm Ho Hp. split.
  - by rewrite merged_perm, Hperm.
  - by apply merged_sorted.
  - apply merged_points.
  - by rewrite merged_ooo.
  - intros i j o p Hi Hj Hts.
    destruct (Nat.lt_ge_cases j i) as [|Hij]; [done|exfalso].
    assert (i ≠ j) by (intros ->; congruence).
    pose proof (take_drop_middle _ _ _ Hi) as Hsplit.
    assert (Hin : (FromPoints, p) ∈ drop (S i) (merged ooo pts)).
    { apply list_elem_of_lookup. exists (j - S i)%nat.
      rewrite lookup_drop. rewrite <-Hj. f_equal. lia. }
    pose proof (merged_later_points ooo pts Hp _ _ _ _ (eq_sym Hsplit) Hin).
    lia.
Qed.

Section loops.
Context {E : Type} `{!seriesEncoder T E}.
Implicit Types (st : encState T E).

Lemma encoded_error e cs e' err :
  encoded e cs e' (Some err) →
  ∃ before o p e0, cs = before ++ [(o, p)] ∧
    encoded e before e0 None ∧ encodePoint e0 p = (e', Some err).
Proof.
  intros H. remember (Some err) as r eqn:Hr.
  induction H as [e|e o p e' err' Hp|e o p e1 cs e' r Hp H IH].
  - done.
  - injection Hr as ->. exists [], o, p, e. split; [done|].
    split; [constructor|done].
  - destruct (IH Hr) as (before & o' & p' & e0 & -> & Hbefore & Hfail).
    exists ((o, p) :: before), o', p', e0. split; [done|].
    split; [by eapply encoded_cons|done].
Qed.

Lemma encoded_nil_calls e cs e' :
  encoded e cs e' None →
  ∀ l1 o p l2, cs = l1 ++ (o, p) :: l2 →
    ∃ e0 e1, encoded e l1 e0 None ∧ encodePoint e0 p = (e1, None) ∧
      encoded e1 l2 e' None.
Proof.
  intros H. remember None as r eqn:Hr.
  induction H as [e|e o p e' err' Hp|e o p e1 cs e' r Hp H IH];
    intros l1 o' p' l2 Heq.
  - by destruct l1.
  - done.
  - destruct l1 as [|c l1]; simpl in Heq.
    + simplify_eq. exists e, e1. split; [constructor|done].
    + simplify_eq.
      destruct (IH eq_refl _ _ _ _ eq_refl) as (e0 & e2 & H1 & H2 & H3).
      exists e0, e2. split; [by eapply encoded_cons|done].
Qed.

Lemma ran_step all st st' o p err_opt res :
  encode o p st = (st', err_opt) →
  (err_opt = None → ran all st' res) →
  (∀ err, err_opt = Some err → res = (st', Some err)) →
  ran ((o, p) :: all) st res.
Proof.
  unfold encode. destruct (encodePoint (enc st) p) as [e' r] eqn:Henc.
  intros [= <- <-] Hok Herr. destruct r as [err|].
  - rewrite (Herr err eq_refl). exists [(o, p)], all. simpl.
    split; [done|]. split; [done|]. split; [by apply encoded_last|done].
  - destruct (Hok eq_refl) as (done & rest & -> & Hcalls & Hdone & Hrest).
    exists ((o, p) :: done), rest. split; [done|]. split.
    + rewrite Hcalls. simpl. by rewrite <-app_assoc.
    + split; [|done]. by eapply encoded_cons.
Qed.

Lemma drain_ran o l st : ran ((λ p, (o, p)) <$> l) st (drain o l st).
Proof.
  revert st. induction l as [|p l IH]; intros st; simpl.
  - exists [], []. simpl. rewrite app_nil_r.
    split; [done|]. split; [done|]. split; [constructor|done].
  - destruct (encode o p st) as [st' r] eqn:Henc.
    eapply ran_step; [done | |]; intros; subst; [apply IH|done].
Qed.

Lemma merge_loop_cons o ooo p pts st :
  merge_loop (o :: ooo) (p :: pts) st =
  if (Timestamp o <? Timestamp p)%Z then
    let '(st', r) := encode FromOutOfOrder o st in
    match r with
    | Some err => (st', Some err)
    | None => merge_loop ooo (p :: pts) st'
    end
  else
    let '(st', r) := encode FromPoints p st in
    match r with
    | Some err => (st', Some err)
    | None => merge_loop (o :: ooo) pts st'
    end.
Proof. done. Qed.

Lemma merge_loop_ran ooo pts :
  ∀ st, ran (merged ooo pts) st (merge_loop ooo pts st).
Proof.
  revert ooo pts. apply (merged_ind (λ ooo pts,
    ∀ st, ran (merged ooo pts) st (merge_loop ooo pts st))).
  - intros pts st. rewrite merged_nil_l.
    replace (merge_loop [] pts st) with (drain FromPoints pts st)
      by by destruct pts.
    apply drain_ran.
  - intros o ooo st. rewrite merged_nil_r. apply drain_ran.
  - intros o ooo p pts Hlt IH st. rewrite merged_cons, merge_loop_cons.
    destruct (Z.ltb_spec (Timestamp o) (Timestamp p)); [|lia].
    destruct (encode FromOutOfOrder o st) as [st' r] eqn:Henc.
    eapply ran_step; [done | |]; intros; subst; [apply IH|done].
  - intros o ooo p pts Hge IH st. rewrite merged_cons, merge_loop_cons.
    destruct (Z.ltb_spec (Timestamp o) (Timestamp p)); [lia|].
    destruct (encode FromPoints p st) as [st' r] eqn:Henc.
    eapply ran_step; [done | |]; intros; subst; [apply IH|done].
Qed.

End loops.
End encode_facts.

(** ** The memory partition *)

Section partition_facts.
Import Metric Partition.
Context {T W : Type} `{!wal T W} (mk : string → list Label → string).
Implicit Types (m : memoryPartition T W) (rows : list (Row T))
  (ms : gmap string (memoryMetric T)) (now : nat → Time).

Lemma gtb_max (a b : Z) : (if (b >? a)%Z then b else a) = Z.max a b.
Proof. destruct (Z.gtb_spec b a); lia. Qed.

Lemma max_list_ge a l : (a <= max_list a l)%Z.
Proof.
  unfold max_list. revert a. induction l as [|x l IH]; intros a; simpl; [lia|].
  specialize (IH (Z.max a x)). lia.
Qed.

Lemma max_list_elem a l x : x ∈ l → (x <= max_list a l)%Z.
Proof.
  unfold max_list. revert a. induction l as [|y l IH]; intros a Hx; simpl.
  - by apply elem_of_nil in Hx.
  - apply elem_of_cons in Hx as [->|Hx]; [|by apply IH].
    pose proof (max_list_ge (Z.max a y) l). unfold max_list in *. lia.
Qed.

Lemma max_list_cases a l : max_list a l = a ∨ max_list a l ∈ l.
Proof.
  unfold max_list. revert a. induction l as [|y l IH]; intros a; simpl; [by left|].
  destruct (IH (Z.max a y)) as [Heq|Hin].
  - rewrite Heq. destruct (Z.max_spec a y) as [[_ ->]|[_ ->]]; [right; left|by left].
  - right. by right.
Qed.

(** The greatest of [b] and [l], capped below by [a], is the greatest of
    [a] and [l] as soon as [b] is at most [a] or is one of [l]. *)
Lemma max_list_init a b l :
  (b <= a)%Z ∨ b ∈ l →
  (if (a <? max_list b l)%Z then max_list b l else a) = max_list a l.
Proof.
  intros Hb.
  pose proof (max_list_ge a l). pose proof (max_list_ge b l).
  assert (Hba : (b <= max_list a l)%Z).
  { destruct Hb as [|Hb]; [lia|by apply max_list_elem]. }
  assert (Hab : (max_list b l <= max_list a l)%Z).
  { destruct (max_list_cases b l) as [->|Hin]; [done|by apply max_list_elem]. }
  assert (Hba' : (max_list a l <= Z.max a (max_list b l))%Z).
  { destruct (max_list_cases a l) as [->|Hin]; [lia|].
    pose proof (max_list_elem b l _ Hin). lia. }
  destruct (Z.ltb_spec a (max_list b l)); lia.
Qed.

Lemma iter_shift {A} (n : nat) (f : A → A) (x : A) :
  Nat.iter n f (f x) = f (Nat.iter n f x).
Proof. induction n as [|n IH]; simpl; [done|by rewrite IH]. Qed.

Lemma iter_incr (n : nat) (z : Z) :
  (0 <= z)%Z → (z + Z.of_nat n <= max_int64)%Z →
  Nat.iter n (λ z, wrap64 (z + 1)) z = (z + Z.of_nat n)%Z.
Proof.
  intros Hz Hn. induction n as [|n IH]; simpl; [lia|].
  rewrite IH by lia. rewrite wrap64_id; [lia|].
  unfold in_int64, min_int64, max_int64 in *. lia.
Qed.

Lemma set_metrics_id m : set_metrics m (metrics m) = m.
Proof. by destruct m. Qed.

Lemma length_stored_filter mn precision now i rows :
  (length (stored mk mn precision now i rows)
   + length (filter (outdated mn) rows))%nat = length rows.
Proof.
  revert i. induction rows as [|row rows IH]; intros i; simpl; [done|].
  destruct (decide (outdated mn row)).
  - rewrite filter_cons_True by done. simpl. specialize (IH (S i)). lia.
  - rewrite filter_cons_False by done. simpl. specialize (IH (S i)). lia.
Qed.

(** The loop of [insertRows], in one piece: the outdated rows are set
    aside, the others are stored in batch order, and the local variables
    are the maximum and the count of the rows stored. *)
Lemma insertRows_loop_eq now rows : ∀ i (st : loopState T W),
  insertRows_loop mk now i rows st =
  (let m := l_part st in
   let nps := stored mk (minT m) (timestampPrecision m) now i rows in
   ms' ← store_all (metrics m) nps;
   Some (mkLoop (set_metrics m ms')
           (l_outdated st ++ filter (outdated (minT m)) rows)
           (max_list (l_maxTimestamp st) ((Timestamp ∘ snd) <$> nps))
           (Nat.iter (length nps) (λ z, wrap64 (z + 1)) (l_rowsNum st)))).
Proof.
  induction rows as [|row rows IH]; intros i st; simpl.
  { rewrite set_metrics_id, app_nil_r. by destruct st. }
  unfold insertRow at 1. unfold minTimestamp, outdated.
  destruct (Z.ltb_spec (rowTimestamp row) (minT (l_part st))) as [Hlt|Hge].
  - simpl. rewrite IH. simpl.
    destruct (decide (rowTimestamp row < minT (l_part st))%Z); [|lia].
    destruct (store_all _ _); simpl; [|done].
    rewrite filter_cons_True by done. by rewrite <-app_assoc.
  - destruct (decide (rowTimestamp row < minT (l_part st))%Z); [lia|].
    simpl. unfold store_point at 1. simpl.
    set (name := mk (Metric row) (Labels row)).
    set (pt := mkDataPoint _ _).
    assert (Hget : ∀ mt',
      (let '(m1, _) := getMetric (l_part st) name in
       set_metrics m1 (<[name := mt']> (metrics m1))) =
      set_metrics (l_part st) (<[name := mt']> (metrics (l_part st)))).
    { intros mt'. unfold getMetric.
      destruct (metrics (l_part st) !! name); [done|].
      unfold set_metrics. simpl. by rewrite insert_insert_eq. }
    assert (Hmt : (getMetric (l_part st) name).2 =
                  default (fresh_metric name) (metrics (l_part st) !! name)).
    { unfold getMetric. by destruct (metrics (l_part st) !! name). }
    destruct (getMetric (l_part st) name) as [m1 mt] eqn:Hg.
    simpl in Hmt. subst mt.
    destruct (insertPoint _ pt) as [mt'|]; simpl; [|done].
    specialize (Hget mt'). simpl in Hget. rewrite Hget.
    rewrite IH. simpl. destruct (store_all _ _); simpl; [|done].
    rewrite filter_cons_False by done. rewrite gtb_max.
    f_equal. f_equal.
    exact (iter_shift _ (λ z : Z, wrap64 (z + 1)) _).
Qed.

(** [insertRows] on a batch that passes the WAL step, in one piece. *)
Lemma insertRows_eq m row0 rows' now w' :
  append (wal_ m) operationInsert (row0 :: rows') = (w', None) →
  insertRows mk m (row0 :: rows') now =
  (let rows := row0 :: rows' in
   let mn := if once m then minT m else batch_min (rowTimestamp row0) rows in
   let nps := stored mk mn (timestampPrecision m) now 0 rows in
   ms' ← store_all (metrics m) nps;
   let lmax := max_list (rowTimestamp row0) ((Timestamp ∘ snd) <$> nps) in
   let n := Nat.iter (length nps) (λ z, wrap64 (z + 1)) 0%Z in
   Some (mkPartition (addInt64 (numPoints m) n) mn
           (if (maxT m <? lmax)%Z then lmax else maxT m) ms' w'
           (partitionDuration m) (timestampPrecision m) true,
         filter (outdated mn) rows, None)).
Proof.
  intros Happ. unfold insertRows. rewrite Happ.
  rewrite insertRows_loop_eq. unfold once_do.
  destruct (once m) eqn:Ho; simpl; rewrite ?Ho;
    (destruct (store_all _ _); simpl; [|done]);
    by destruct (_ <? _)%Z.
Qed.

(** The loop of [once.Do] finds the least timestamp of the batch. *)
Lemma batch_min_spec rows : ∀ a,
  (batch_min a rows <= a)%Z ∧
  (∀ row : Row T, row ∈ rows → (batch_min a rows <= rowTimestamp row)%Z) ∧
  (batch_min a rows = a ∨
   ∃ row, row ∈ rows ∧ rowTimestamp row = batch_min a rows).
Proof.
  unfold batch_min. induction rows as [|row rows IH]; intros a; simpl.
  { split; [lia|]. split; [|by left]. intros row Hrow.
    by apply elem_of_nil in Hrow. }
  destruct (Z.ltb_spec (rowTimestamp row) a) as [Hlt|Hge].
  - destruct (IH (rowTimestamp row)) as (H1 & H2 & H3).
    split; [lia|]. split.
    + intros r [->|Hr]%elem_of_cons; [done|by apply H2].
    + right. destruct H3 as [->|(r & Hr & Heq)].
      * exists row. split; [by left|done].
      * exists r. split; [by right|done].
  - destruct (IH a) as (H1 & H2 & H3). split; [done|]. split.
    + intros r [->|Hr]%elem_of_cons; [lia|by apply H2].
    + destruct H3 as [->|(r & Hr & Heq)]; [by left|right].
      exists r. split; [by right|done].
Qed.

Lemma batch_min_least row0 rows' :
  least_timestamp (row0 :: rows')
    (batch_min (rowTimestamp row0) (row0 :: rows')).
Proof.
  destruct (batch_min_spec (row0 :: rows') (rowTimestamp row0))
    as (H1 & H2 & H3).
  split; [|done]. destruct H3 as [Heq|(r & Hr & Heq)].
  - exists row0. split; [by left|done].
  - by exists r.
Qed.

Lemma series_inv_fresh name : series_inv (T:=T) (fresh_metric name).
Proof. split; simpl; [done|constructor|done|done]. Qed.

(** Storing points keeps the invariant of every series, and never panics,
    as long as the counters stay below the greatest [int64]. *)
Lemma store_all_inv nps : ∀ ms (B : Z),
  (0 <= B)%Z →
  (∀ name mt, ms !! name = Some mt →
     series_inv mt ∧ (Metric.size mt <= B)%Z) →
  (B + Z.of_nat (length nps) <= max_int64)%Z →
  ∃ ms', store_all ms nps = Some ms' ∧
    ∀ name mt, ms' !! name = Some mt →
      series_inv mt ∧ (Metric.size mt <= B + Z.of_nat (length nps))%Z.
Proof.
  induction nps as [|[name pt] nps IH]; intros ms B HB Hms Hbound; simpl.
  { exists ms. split; [done|]. intros name mt Hmt.
    destruct (Hms _ _ Hmt). split; [done|lia]. }
  simpl in Hbound. unfold store_point. simpl.
  set (mt0 := default (fresh_metric name) (ms !! name)).
  assert (Hmt0 : series_inv mt0 ∧ (Metric.size mt0 <= B)%Z).
  { unfold mt0. destruct (ms !! name) as [mt|] eqn:Hl; simpl.
    - by apply (Hms name).
    - split; [apply series_inv_fresh|done]. }
  destruct Hmt0 as [Hinv0 Hsz0].
  destruct (insertPoint_spec mt0 pt Hinv0 ltac:(lia))
    as (mt' & -> & Hinv' & Hsz' & _).
  simpl.
  destruct (IH (<[name := mt']> ms) (B + 1)%Z) as (ms' & Hms' & Hall);
    [lia| |lia|].
  - intros name' mt Hmt. destruct (decide (name = name')) as [->|Hne].
    + rewrite lookup_insert_eq in Hmt. simplify_eq. split; [done|lia].
    + rewrite lookup_insert_ne in Hmt by done.
      destruct (Hms _ _ Hmt). split; [done|lia].
  - exists ms'. split; [done|]. intros name' mt Hmt.
    destruct (Hall _ _ Hmt). split; [done|lia].
Qed.

(** [insertRows] on a partition with the invariant, within the range of
    the counters: the call returns, the invariant holds afterwards, and the
    call either passed the WAL step, returned nil and left [minT] latched,
    or returned an error and left the partition as it was. *)
Lemma insertRows_total m rows now :
  part_inv m →
  (numPoints m + Z.of_nat (length rows) <= max_int64)%Z →
  ∃ m' out err,
    insertRows mk m rows now = Some (m', out, err) ∧
    part_inv m' ∧
    (numPoints m <= numPoints m' <= numPoints m + Z.of_nat (length rows))%Z ∧
    if decide (passes m rows) then
      err = None ∧ once m' = true ∧
      (once m = true → minT m' = minT m) ∧
      (once m = false → least_timestamp rows (minT m'))
    else
      is_Some err ∧ out = [] ∧ once m' = once m ∧ minT m' = minT m ∧
      maxT m' = maxT m ∧ numPoints m' = numPoints m ∧
      metrics m' = metrics m.
Proof.
  intros Hinv Hbound. pose proof Hinv as [HmaxT Hlat Hunl Hnum Hser].
  destruct rows as [|row0 rows'].
  { eexists _, _, _. split; [done|]. split; [done|]. split; [simpl; lia|].
    destruct (decide (passes m [])) as [[? _]|_]; [done|]. by eauto 10. }
  destruct (append (wal_ m) operationInsert (row0 :: rows')) as [w' e] eqn:Happ.
  destruct e as [e|].
  { unfold insertRows. rewrite Happ. eexists _, _, _. split; [done|].
    split; [by split|]. simpl. split; [lia|].
    destruct (decide (passes m (row0 :: rows'))) as [[_ Hp]|_].
    - by rewrite Happ in Hp.
    - by eauto 10. }
  rewrite (insertRows_eq _ _ _ _ _ Happ). cbv zeta.
  set (rows := row0 :: rows') in *.
  set (mn := if once m then minT m else batch_min (rowTimestamp row0) rows).
  set (nps := stored mk mn (timestampPrecision m) now 0 rows).
  pose proof (length_stored_filter mn (timestampPrecision m) now 0 rows) as Hlen.
  fold nps in Hlen.
  destruct (store_all_inv nps (metrics m) (numPoints m) Hnum Hser
              ltac:(lia)) as (ms' & Hms' & Hall).
  rewrite Hms'. simpl.
  rewrite iter_incr by lia. unfold addInt64.
  rewrite wrap64_id
    by (unfold in_int64, min_int64, max_int64 in *; lia).
  eexists _, _, _. split; [done|].
  set (lmax := max_list _ _).
  assert (Hmn : (mn <= lmax)%Z ∨ (once m = true)).
  { unfold mn. destruct (once m); [by right|left].
    pose proof (batch_min_spec rows (rowTimestamp row0)) as [? _].
    pose proof (max_list_ge (rowTimestamp row0) ((Timestamp ∘ snd) <$> nps)).
    unfold lmax. lia. }
  assert (Hlr : length rows = S (length rows')) by done.
  split; [|split; [simpl; lia|]].
  - split; simpl.
    + destruct (Z.ltb_spec (maxT m) lmax); lia.
    + intros _. destruct Hmn as [Hmn|Ho].
      * destruct (Z.ltb_spec (maxT m) lmax); lia.
      * unfold mn. rewrite Ho. specialize (Hlat Ho).
        destruct (Z.ltb_spec (maxT m) lmax); lia.
    + done.
    + lia.
    + done.
  - destruct (decide (passes m rows)) as [_|Hnp].
    + simpl. split; [done|]. split; [done|]. unfold mn. split.
      * by intros ->.
      * intros ->. apply batch_min_least.
    + exfalso. apply Hnp. split; [done|]. by rewrite Happ.
Qed.

Lemma part_inv_new (w : option W) d precision :
  part_inv (newMemoryPartition (T:=T) w d precision).
Proof.
  split; by simpl.
Qed.

(** C5: [insertRows] returns an error exactly when the batch is empty or
    [wal.append] returns an error, and then the latch, [minT], [maxT],
    [numPoints] and the metrics map are what they were before the call.
    (Stated of a partition with its invariant and a batch that the counter
    [numPoints] has room for, of which the call is shown to return.) *)
Theorem insertRows_error_iff m rows now :
  part_inv m →
  (numPoints m + Z.of_nat (length rows) <= max_int64)%Z →
  ∃ m' out err,
    insertRows mk m rows now = Some (m', out, err) ∧
    (is_Some err ↔
       rows = [] ∨ is_Some (append (wal_ m) operationInsert rows).2) ∧
    (is_Some err →
       once m' = once m ∧ minT m' = minT m ∧ maxT m' = maxT m ∧
       numPoints m' = numPoints m ∧ metrics m' = metrics m).
Proof.
  intros Hinv Hbound.
  destruct (insertRows_total m rows now Hinv Hbound)
    as (m' & out & err & Hrun & _ & _ & Hcase).
  exists m', out, err. split; [done|].
  destruct (decide (passes m rows)) as [[Hne Hok]|Hnp].
  - destruct Hcase as (-> & _). split.
    + split; [by intros [? ?]|]. intros [?|Herr]; [done|].
      rewrite Hok in Herr. by destruct Herr.
    + by intros [? ?].
  - destruct Hcase as (Herr & _ & ? & ? & ? & ? & ?). split; [|done].
    split; [intros _|done].
    destruct rows as [|r rows']; [by left|right].
    destruct ((append (wal_ m) operationInsert (r :: rows')).2) eqn:He; [done|].
    exfalso. apply Hnp. by split.
Qed.

(** C8: in a sequence of [insertRows] calls on a partition whose latch has
    not fired, [minTimestamp()] is afterwards the least raw timestamp of the
    batch of the first call that passed the WAL step (and the latch has not
    fired if no call did); on a partition whose latch has fired, no sequence
    of calls changes [minTimestamp()]. *)
Theorem minT_latch (cs : list (list (Row T) * (nat → Time))) : ∀ m,
  part_inv m →
  (numPoints m + Z.of_nat (length (concat cs.*1)) <= max_int64)%Z →
  ∃ m', run_inserts mk m cs = Some m' ∧
    if once m then once m' = true ∧ minTimestamp m' = minTimestamp m
    else
      match first_passing mk m cs with
      | Some batch => once m' = true ∧ least_timestamp batch (minTimestamp m')
      | None => once m' = false ∧ minTimestamp m' = minTimestamp m
      end.
Proof.
  induction cs as [|[rows now] cs IH]; intros m Hinv Hbound; simpl.
  { exists m. split; [done|]. by destruct (once m). }
  change (concat ((rows, now) :: cs).*1) with (rows ++ concat cs.*1) in Hbound.
  rewrite length_app in Hbound.
  destruct (insertRows_total m rows now Hinv ltac:(lia))
    as (m1 & out & err & Hrun & Hinv1 & Hnum & Hcase).
  rewrite Hrun. simpl.
  destruct (IH m1 Hinv1 ltac:(lia)) as (m' & Hrun' & Hm').
  exists m'. split; [done|]. unfold minTimestamp in *.
  destruct (decide (passes m rows)) as [Hp|Hnp].
  - destruct Hcase as (_ & Ho1 & Hlatched & Hfresh). rewrite Ho1 in Hm'.
    destruct Hm' as [Ho' Hmin']. destruct (once m) eqn:Ho.
    + split; [done|]. rewrite Hmin'. by apply Hlatched.
    + split; [done|]. rewrite Hmin'. by apply Hfresh.
  - destruct Hcase as (_ & _ & Ho1 & Hmin1 & _). rewrite Ho1 in Hm'.
    destruct (once m) eqn:Ho.
    + destruct Hm' as [? ->]. done.
    + destruct (first_passing mk m1 cs); [done|].
      destruct Hm' as [? ->]. done.
Qed.

(** C9: a call of [insertRows] that returns the outdated rows [O] and a nil
    error raises [size()] by [len(rows) - len(O)]: every row that is not
    outdated is counted, in order or not.  (The bound is the range of the
    64-bit counter.) *)
Theorem insertRows_size m rows now m' (O : list (Row T)) :
  (0 <= numPoints m)%Z →
  (numPoints m + Z.of_nat (length rows) <= max_int64)%Z →
  insertRows mk m rows now = Some (m', O, None) →
  size m' = (size m + Z.of_nat (length rows) - Z.of_nat (length O))%Z.
Proof.
  intros Hnum Hbound. destruct rows as [|row0 rows']; [done|].
  destruct (append (wal_ m) operationInsert (row0 :: rows')) as [w' e] eqn:Happ.
  destruct e as [e|].
  { unfold insertRows. by rewrite Happ. }
  rewrite (insertRows_eq _ _ _ _ _ Happ). cbv zeta.
  set (rows := row0 :: rows') in *.
  set (mn := if once m then minT m else batch_min (rowTimestamp row0) rows).
  set (nps := stored mk mn (timestampPrecision m) now 0 rows).
  pose proof (length_stored_filter mn (timestampPrecision m) now 0 rows) as Hlen.
  fold nps in Hlen.
  destruct (store_all (metrics m) nps) as [ms'|]; simpl; [|done].
  intros [= <- <-]. unfold size. simpl.
  rewrite iter_incr by lia. unfold addInt64.
  rewrite wrap64_id
    by (unfold in_int64, min_int64, max_int64 in *; lia).
  change (S (length rows')) with (length rows). lia.
Qed.

(** C4, as amended: on a partition whose [minT] is latched, a call of
    [insertRows] that passes the WAL step (a batch that is not empty, and
    [wal.append] returning nil) returns, with a nil error, the rows whose
    timestamp is below [minT], in batch order; the series, [numPoints] and
    [maxT] afterwards are those made by the other rows alone, and nothing
    changes when every row is outdated. *)
Theorem insertRows_outdated m rows now :
  part_inv m →
  once m = true →
  passes m rows →
  (numPoints m + Z.of_nat (length rows) <= max_int64)%Z →
  let nps := stored mk (minT m) (timestampPrecision m) now 0 rows in
  ∃ m',
    insertRows mk m rows now =
      Some (m', filter (outdated (minT m)) rows, None) ∧
    store_all (metrics m) nps = Some (metrics m') ∧
    numPoints m' = (numPoints m + Z.of_nat (length nps))%Z ∧
    maxT m' = max_list (maxT m) ((Timestamp ∘ snd) <$> nps) ∧
    minT m' = minT m ∧
    (Forall (outdated (minT m)) rows →
       metrics m' = metrics m ∧ numPoints m' = numPoints m ∧
       maxT m' = maxT m).
Proof.
  intros Hinv Ho [Hne Hok] Hbound nps.
  pose proof Hinv as [HmaxT Hlat _ Hnum Hser]. specialize (Hlat Ho).
  destruct rows as [|row0 rows']; [done|].
  destruct (append (wal_ m) operationInsert (row0 :: rows')) as [w' e] eqn:Happ.
  simpl in Hok. subst e.
  rewrite (insertRows_eq _ _ _ _ _ Happ). cbv zeta. rewrite Ho.
  set (rows := row0 :: rows') in *. fold nps.
  pose proof (length_stored_filter (minT m) (timestampPrecision m) now 0 rows)
    as Hlen.
  fold nps in Hlen.
  destruct (store_all_inv nps (metrics m) (numPoints m) Hnum Hser
              ltac:(lia)) as (ms' & Hms' & _).
  rewrite Hms'. simpl.
  rewrite iter_incr by lia. unfold addInt64.
  rewrite wrap64_id
    by (unfold in_int64, min_int64, max_int64 in *; lia).
  eexists. split; [done|]. simpl.
  assert (Hmax :
    (if (maxT m <? max_list (rowTimestamp row0) ((Timestamp ∘ snd) <$> nps))%Z
     then max_list (rowTimestamp row0) ((Timestamp ∘ snd) <$> nps)
     else maxT m) = max_list (maxT m) ((Timestamp ∘ snd) <$> nps)).
  { apply max_list_init. unfold nps, rows. simpl.
    destruct (decide (outdated (minT m) row0)) as [Hout|Hin].
    - left. unfold outdated in Hout. lia.
    - destruct (Z.eqb_spec (rowTimestamp row0) 0) as [->|_]; [by left|].
      right. simpl. left. }
  split; [done|]. split; [lia|]. split; [done|]. split; [done|].
  intros Hall.
  assert (Hnil : nps = []).
  { unfold nps. generalize 0%nat. clear -Hall.
    induction Hall as [|r rs Hr _ IH]; intros i; simpl; [done|].
    by destruct (decide (outdated (minT m) r)). }
  rewrite Hmax. clearbody nps. subst nps. simpl in Hms'.
  injection Hms' as <-. simpl. split; [done|]. split; [lia|done].
Qed.

Lemma selectPoints_fresh name start end_ :
  selectPoints (T:=T) (fresh_metric name) start end_ = Some [].
Proof.
  unfold selectPoints. simpl.
  destruct (end_ <=? 0)%Z; [done|].
  by destruct (start <=? 0)%Z, (end_ >=? 0)%Z.
Qed.

(** A call that returns has returned a nil error and has changed at most
    the metrics map, where it has stored an empty series for a name that
    had none. *)
Lemma selectDataPoints_frame m metric labels start end_ m' pts err :
  selectDataPoints mk m metric labels start end_ = Some (m', pts, err) →
  err = None ∧
  minT m' = minT m ∧ maxT m' = maxT m ∧ numPoints m' = numPoints m ∧
  once m' = once m ∧
  (∀ name mt, metrics m !! name = Some mt → metrics m' !! name = Some mt) ∧
  (metrics m !! mk metric labels = None →
     metrics m' = <[mk metric labels := fresh_metric (mk metric labels)]>
                    (metrics m) ∧
     pts = []).
Proof.
  unfold selectDataPoints, getMetric.
  destruct (metrics m !! mk metric labels) as [mt|] eqn:Hl; simpl.
  - destruct (selectPoints mt start end_); simpl; [|done].
    intros [= <- <- <-]. by repeat split.
  - change (mkMetric (mk metric labels) 0 0 0 [] [])
      with (fresh_metric (T:=T) (mk metric labels)).
    rewrite selectPoints_fresh. simpl. intros [= <- <- <-].
    repeat split; try done. simpl.
    intros name mt Hmt. rewrite lookup_insert_ne; [done|]. congruence.
Qed.

(** For a name that has no series the call does return. *)
Lemma selectDataPoints_unknown m metric labels start end_ :
  metrics m !! mk metric labels = None →
  ∃ m', selectDataPoints mk m metric labels start end_ = Some (m', [], None).
Proof.
  intros Hl. unfold selectDataPoints, getMetric. rewrite Hl.
  change (mkMetric (mk metric labels) 0 0 0 [] [])
    with (fresh_metric (T:=T) (mk metric labels)).
  rewrite selectPoints_fresh. by eexists.
Qed.

(** On a window that is not inverted and does not end at the series'
    [maxTimestamp], the call returns the points of the window. *)
Lemma selectDataPoints_window m metric labels start end_ mt :
  part_inv m → metrics m !! mk metric labels = Some mt →
  (start <= end_)%Z → end_ ≠ Metric.maxTimestamp mt →
  selectDataPoints mk m metric labels start end_ =
    Some (m, filter (in_window start end_) (points mt), None).
Proof.
  intros [_ _ _ _ Hser] Hl Hse Hmax. destruct (Hser _ _ Hl) as [Hinv _].
  unfold selectDataPoints, getMetric. rewrite Hl.
  by rewrite (selectPoints_window mt start end_ Hinv Hse Hmax).
Qed.

(** On every window that is not inverted the call returns; and in any case
    it leaves the invariant of the partition in place. *)
Lemma selectDataPoints_returns m metric labels start end_ :
  part_inv m → (start <= end_)%Z →
  ∃ m' pts, selectDataPoints mk m metric labels start end_
            = Some (m', pts, None) ∧ part_inv m'.
Proof.
  intros Hinv Hse. pose proof Hinv as [? ? ? ? Hser].
  unfold selectDataPoints, getMetric.
  destruct (metrics m !! mk metric labels) as [mt|] eqn:Hl.
  - destruct (Hser _ _ Hl) as [Hmt _].
    rewrite (selectPoints_ordered_window mt start end_ Hmt Hse). simpl.
    by eexists _, _.
  - change (mkMetric (mk metric labels) 0 0 0 [] [])
      with (fresh_metric (T:=T) (mk metric labels)).
    rewrite selectPoints_fresh. simpl. eexists _, _. split; [done|].
    split; simpl; try done. intros name mt Hmt.
    destruct (decide (mk metric labels = name)) as [<-|Hne].
    + rewrite lookup_insert_eq in Hmt. injection Hmt as <-.
      split; [apply series_inv_fresh|done].
    + rewrite lookup_insert_ne in Hmt by done. by apply (Hser name).
Qed.

End partition_facts.

(** ** The partition list *)

Section plist_facts.
Import PartitionList.
Context {P : Type} `{!partition P}.
Implicit Types (p : partitionListImpl P) (ns : gmap loc (partitionNode P))
  (ls : list loc) (h e : option loc) (nd : partitionNode P).

Lemma segment_app ns h l1 l2 e :
  segment ns h (l1 ++ l2) e ↔ ∃ mid, segment ns h l1 mid ∧ segment ns mid l2 e.
Proof.
  revert h. induction l1 as [|l l1 IH]; intros h; simpl.
  - split; [intros Hs; by exists h|]. by intros (mid & -> & ?).
  - split.
    + intros (-> & nd & Hnd & Hs). apply IH in Hs as (mid & ? & ?).
      exists mid. split; [|done]. split; [done|]. by exists nd.
    + intros (mid & (-> & nd & Hnd & Hs) & Hs'). split; [done|].
      exists nd. split; [done|]. apply IH. by exists mid.
Qed.

(** A segment reads the heap at its own nodes only. *)
Lemma segment_agree ns ns' h ls e :
  (∀ l, l ∈ ls → ns' !! l = ns !! l) →
  segment ns h ls e → segment ns' h ls e.
Proof.
  revert h. induction ls as [|l ls IH]; intros h Hag; simpl; [done|].
  intros (-> & nd & Hnd & Hs). split; [done|]. exists nd. split.
  - rewrite Hag; [done|left].
  - apply IH; [|done]. intros l' Hl'. apply Hag. by right.
Qed.

Lemma segment_allocated ns h ls e l :
  segment ns h ls e → l ∈ ls → is_Some (ns !! l).
Proof.
  revert h. induction ls as [|l0 ls IH]; intros h; simpl.
  - intros _ Hl. by apply elem_of_nil in Hl.
  - intros (-> & nd & Hnd & Hs) [->|Hl]%elem_of_cons; [by exists nd|].
    by eapply IH.
Qed.

Lemma segment_start ns h ls e :
  segment ns h ls e → h = match ls with [] => e | l :: _ => Some l end.
Proof. destruct ls; simpl; [done|]. by intros [-> _]. Qed.

(** The nodes reachable from a head are determined by the heap. *)
Lemma chain_unique ns h ls ls' : chain ns h ls → chain ns h ls' → ls = ls'.
Proof.
  unfold chain. revert h ls'. induction ls as [|l ls IH]; intros h ls'; simpl.
  - intros ->. destruct ls'; simpl; [done|]. by intros [? _].
  - intros (-> & nd & Hnd & Hs). destruct ls' as [|l' ls']; simpl; [done|].
    intros ([= <-] & nd' & Hnd' & Hs'). simplify_eq. f_equal. by eapply IH.
Qed.

Lemma reachable_chain ns h ls fuel :
  chain ns h ls → (length ls <= fuel)%nat → reachable fuel ns h = Some ls.
Proof.
  unfold chain. revert h fuel. induction ls as [|l ls IH]; intros h fuel; simpl.
  - intros -> _. by destruct fuel.
  - intros (-> & nd & Hnd & Hs) Hfuel. destruct fuel as [|fuel]; [lia|].
    simpl. rewrite Hnd. simpl. rewrite (IH _ fuel Hs); [done|lia].
Qed.

Lemma counted_head_nil p ls :
  counted p ls → (head p = None ↔ size p = 0%Z).
Proof.
  intros (Hc & _ & Hsz). apply segment_start in Hc.
  destruct ls; simpl in *; rewrite Hc, Hsz; split; first [done | lia].
Qed.

Lemma counted_new : counted (P:=P) newPartitionList [].
Proof. split; [done|]. split; [constructor|done]. Qed.

(** *** [insert] *)

Lemma insert_nodes p part :
  ∃ l, nodes p !! l = None ∧
    head (insert p part) = Some l ∧
    nodes (insert p part) = <[l := mkNode part (head p)]> (nodes p) ∧
    tail (insert p part) = tail p ∧
    cleaned (insert p part) = cleaned p ∧
    numPartitions (insert p part) = addInt64 (numPartitions p) 1.
Proof.
  exists (fresh (dom (nodes p))). split.
  { apply not_elem_of_dom, is_fresh. }
  unfold insert, alloc. simpl. destruct (head p) as [hd|]; simpl.
  - by rewrite alter_insert_eq.
  - done.
Qed.

Lemma insert_counted p ls part :
  counted p ls →
  (Z.of_nat (length ls) < max_int64)%Z →
  ∃ l, (l ∉ ls) ∧ counted (insert p part) (l :: ls) ∧
       nodes (insert p part) !! l = Some (mkNode part (head p)) ∧
       tail (insert p part) = tail p.
Proof.
  intros (Hc & Hnd & Hsz) Hbound.
  destruct (insert_nodes p part) as (l & Hl & Hhd & Hns & Htl & _ & Hnum).
  assert (Hfresh : l ∉ ls).
  { intros Hin. destruct (segment_allocated _ _ _ _ _ Hc Hin) as [? ?].
    congruence. }
  exists l. split; [done|]. split; [|split; [|done]].
  - split; [|split].
    + unfold chain. rewrite Hhd, Hns. simpl. split; [done|].
      exists (mkNode part (head p)). rewrite lookup_insert_eq. split; [done|].
      simpl. eapply segment_agree; [|exact Hc].
      intros l' Hl'. rewrite lookup_insert_ne; [done|]. by intros ->.
    + by constructor.
    + unfold size in *. rewrite Hnum, Hsz. unfold addInt64.
      rewrite wrap64_id; [simpl length; lia|].
      unfold in_int64, min_int64, max_int64 in *. lia.
  - by rewrite Hns, lookup_insert_eq.
Qed.

(** *** [remove] and [swap]: the scan *)

Lemma holds_same ns target l nd :
  ns !! l = Some nd →
  (samePartitions (val nd) target = true ↔ holds ns target l).
Proof.
  intros Hnd. unfold samePartitions, holds. rewrite Z.eqb_eq. split.
  - intros Heq. by exists nd.
  - intros (nd' & Hnd' & Heq). by simplify_eq.
Qed.

Lemma locate_none ns target prev ls :
  (∀ l, l ∈ ls → ¬ holds ns target l) → locate ns target prev ls = None.
Proof.
  revert prev. induction ls as [|c ls IH]; intros prev Hno; simpl; [done|].
  destruct (ns !! c) as [nd|] eqn:Hnd; [|done].
  destruct (samePartitions (val nd) target) eqn:Hs.
  - exfalso. apply (Hno c); [left|]. by apply (holds_same ns target c nd).
  - apply IH. intros l Hl. apply Hno. by right.
Qed.

(** The node before the first match: the last of the nodes passed, or
    [prev] when there is none. *)
Lemma locate_first ns target prev l1 c l2 nd :
  (∀ l, l ∈ l1 → is_Some (ns !! l) ∧ ¬ holds ns target l) →
  ns !! c = Some nd → holds ns target c →
  locate ns target prev (l1 ++ c :: l2) =
    Some (match last l1 with Some x => Some x | None => prev end, c, nd).
Proof.
  intros Hl1 Hnd Hc. revert prev.
  induction l1 as [|x l1 IH]; intros prev; simpl.
  - rewrite Hnd. by rewrite (proj2 (holds_same ns target c nd Hnd) Hc).
  - destruct (Hl1 x) as [[ndx Hx] Hnx]; [left|]. rewrite Hx.
    destruct (samePartitions (val ndx) target) eqn:Hs.
    { exfalso. apply Hnx. by apply (holds_same ns target x ndx). }
    rewrite IH.
    + f_equal. f_equal. f_equal. destruct l1 as [|y l1]; [done|].
      rewrite last_cons_cons.
      destruct (last (y :: l1)) eqn:Hlast; [done|].
      by apply last_None in Hlast.
    + intros l Hl. apply Hl1. by right.
Qed.

Lemma remove_loop_locate target rest : ∀ fuel p it prev h,
  chain (nodes p) h rest →
  it_next p it = Some (arrive h) →
  (length rest < fuel)%nat →
  remove_loop fuel p it prev target =
    Some (match locate (nodes p) target prev rest with
          | None => (p, Some "the given partition was not found")
          | Some (pv, _, nd) =>
              (unlink p pv nd,
               (λ err, "failed to clean resources managed by partition to be removed: " +:+ err)
                 <$> clean (val nd))
          end).
Proof.
  unfold chain.
  induction rest as [|c rest IH]; intros fuel p it prev h Hc Hit Hfuel;
    (destruct fuel as [|fuel]; [simpl in Hfuel; lia|]); simpl in *.
  - subst h. by rewrite Hit.
  - destruct Hc as (-> & nd & Hnd & Hc). rewrite Hit. simpl. rewrite Hnd. simpl.
    destruct (samePartitions (val nd) target) eqn:Hs; simpl.
    + unfold unlink. destruct (next nd), prev, (clean (val nd)); done.
    + apply (IH fuel p (AtNode c) (Some c) (next nd)); [done| |lia].
      simpl. by rewrite Hnd.
Qed.

Lemma swap_loop_locate old new rest : ∀ fuel p it prev h,
  chain (nodes p) h rest →
  it_next p it = Some (arrive h) →
  (length rest < fuel)%nat →
  swap_loop fuel p it prev old new =
    Some (match locate (nodes p) old prev rest with
          | None => (p, Some "the given partition was not found")
          | Some (pv, _, nd) => (splice p pv nd new, None)
          end).
Proof.
  unfold chain.
  induction rest as [|c rest IH]; intros fuel p it prev h Hc Hit Hfuel;
    (destruct fuel as [|fuel]; [simpl in Hfuel; lia|]); simpl in *.
  - subst h. by rewrite Hit.
  - destruct Hc as (-> & nd & Hnd & Hc). rewrite Hit. simpl. rewrite Hnd. simpl.
    destruct (samePartitions (val nd) old) eqn:Hs; simpl.
    + unfold splice, alloc. simpl.
      assert (Hne : fresh (dom (nodes p)) ≠ c).
      { intros Heq. pose proof (is_fresh (dom (nodes p))) as Hf.
        rewrite Heq in Hf. apply Hf, elem_of_dom. by exists nd. }
      rewrite lookup_insert_ne by done. rewrite Hnd. simpl.
      by destruct (next nd), prev.
    + apply (IH fuel p (AtNode c) (Some c) (next nd)); [done| |lia].
      simpl. by rewrite Hnd.
Qed.

(** *** [remove] and [swap]: the change to the list *)

Lemma unlink_fields p pv nd :
  nodes (unlink p pv nd) =
    match pv with
    | None => nodes p
    | Some x => alter (λ n, mkNode (val n) (next nd)) x (nodes p)
    end ∧
  head (unlink p pv nd) =
    match pv with None => next nd | Some _ => head p end ∧
  tail (unlink p pv nd) =
    match pv, next nd with Some x, None => Some x | _, _ => tail p end ∧
  numPartitions (unlink p pv nd) = addInt64 (numPartitions p) (-1) ∧
  cleaned (unlink p pv nd) = cleaned p ++ [val nd].
Proof. unfold unlink. by destruct pv, (next nd). Qed.

Lemma splice_fields p pv nd new :
  let l := fresh (dom (nodes p)) in
  nodes (splice p pv nd new) =
    match pv with
    | None => <[l := mkNode new (next nd)]> (nodes p)
    | Some x => alter (λ n, mkNode (val n) (Some l)) x
                  (<[l := mkNode new (next nd)]> (nodes p))
    end ∧
  head (splice p pv nd new) =
    match pv with None => Some l | Some _ => head p end ∧
  tail (splice p pv nd new) =
    match pv, next nd with Some x, None => Some l | _, _ => tail p end ∧
  numPartitions (splice p pv nd new) = numPartitions p ∧
  cleaned (splice p pv nd new) = cleaned p.
Proof. unfold splice, alloc. by destruct pv, (next nd). Qed.

Lemma chain_split ns h l1 c l2 :
  chain ns h (l1 ++ c :: l2) →
  ∃ nd, ns !! c = Some nd ∧ segment ns h l1 (Some c) ∧ chain ns (next nd) l2.
Proof.
  unfold chain. intros (mid & H1 & H2)%segment_app. simpl in H2.
  destruct H2 as (-> & nd & Hnd & H2). by exists nd.
Qed.

Lemma segment_snoc ns h l x e :
  segment ns h (l ++ [x]) e ↔
  segment ns h l (Some x) ∧ ∃ nd, ns !! x = Some nd ∧ next nd = e.
Proof.
  rewrite segment_app. simpl. split.
  - intros (mid & H1 & -> & nd & Hnd & He). split; [done|]. by exists nd.
  - intros (H1 & nd & Hnd & He). exists (Some x). split; [done|].
    split; [done|]. by exists nd.
Qed.

Lemma values_agree ns ns' ls :
  (∀ l, l ∈ ls → val <$> ns' !! l = val <$> ns !! l) →
  values ns' ls = values ns ls.
Proof.
  unfold values. induction ls as [|l ls IH]; intros Hag; simpl; [done|].
  rewrite (Hag l) by left.
  assert (IH' := IH (λ l' Hl', Hag l' (list_elem_of_further _ _ _ Hl'))).
  destruct (val <$> ns !! l); [f_equal|]; exact IH'.
Qed.

Lemma chain_next_start ns h ls : chain ns h ls → h = hd_error ls.
Proof. intros Hc%segment_start. by destruct ls. Qed.

Lemma unlink_counted p l1 c l2 nd :
  counted p (l1 ++ c :: l2) →
  nodes p !! c = Some nd →
  (Z.of_nat (length (l1 ++ c :: l2)) <= max_int64)%Z →
  counted (unlink p (last l1) nd) (l1 ++ l2) ∧
  values (nodes (unlink p (last l1) nd)) (l1 ++ l2)
    = values (nodes p) (l1 ++ l2) ∧
  tail (unlink p (last l1) nd) =
    (if decide (l1 ≠ [] ∧ l2 = []) then last l1 else tail p).
Proof.
  intros (Hc & Hnd & Hsz) Hc_nd Hbound.
  destruct (unlink_fields p (last l1) nd) as (Hns & Hhd & Htl & Hnum & _).
  set (p' := unlink p (last l1) nd) in *. clearbody p'.
  apply chain_split in Hc as (nd' & Hnd' & Hseg & Hrest).
  rewrite Hc_nd in Hnd'. injection Hnd' as <-.
  pose proof (chain_next_start _ _ _ Hrest) as Hnext.
  assert (Hsize : size p' = Z.of_nat (length (l1 ++ l2))).
  { unfold size in *. rewrite Hnum, Hsz. unfold addInt64.
    rewrite !length_app in *. simpl in *.
    rewrite wrap64_id; [lia|].
    unfold in_int64, min_int64, max_int64 in *. lia. }
  assert (Hnd12 : NoDup (l1 ++ l2)).
  { apply NoDup_app in Hnd as (H1 & H2 & H3). apply NoDup_cons in H3 as [_ H3].
    apply NoDup_app. split; [done|]. split; [|done].
    intros x Hx Hx2. apply (H2 x Hx). by right. }
  destruct (last l1) as [pv|] eqn:Hlast.
  2:{ (* removing the head node *)
    apply last_None in Hlast as ->.
    change ([] ++ l2) with l2 in *. rewrite Hns. split; [|split; [done|]].
    + split; [|done]. unfold chain. by rewrite Hhd, Hns.
    + rewrite Htl. by destruct (decide _) as [[? _]|_]. }
  - (* removing a node behind [pv] *)
    apply last_Some in Hlast as [l1' ->]. rename l1' into l1.
    apply segment_snoc in Hseg as (Hseg & ndp & Hndp & Hnextp).
    assert (Hpv : pv ∉ l1 ++ l2).
    { rewrite <-app_assoc in Hnd. simpl in Hnd.
      apply NoDup_app in Hnd as (_ & _ & Hnd).
      apply NoDup_app in Hnd12 as (H1 & H2 & _).
      apply NoDup_app in H1 as (_ & H1 & _).
      intros [Hin|Hin]%elem_of_app.
      - apply (H1 pv Hin). left.
      - apply (H2 pv); [|done]. apply elem_of_app. right. left. }
    assert (Hag : ∀ l, l ∈ l1 ++ l2 → nodes p' !! l = nodes p !! l).
    { intros l Hl. rewrite Hns. apply lookup_alter_ne. by intros ->. }
    split; [|split].
    + split; [|done]. unfold chain. rewrite Hhd, <-app_assoc.
      apply segment_app. exists (Some pv). split.
      * eapply segment_agree; [|exact Hseg].
        intros l Hl. apply Hag. apply elem_of_app. by left.
      * simpl. split; [done|]. exists (mkNode (val ndp) (next nd)). split.
        -- by rewrite Hns, lookup_alter_eq, Hndp.
        -- simpl. eapply segment_agree; [|exact Hrest].
           intros l Hl. apply Hag. apply elem_of_app. by right.
    + apply values_agree. intros l Hl. rewrite Hns.
      rewrite lookup_alter.
      destruct (decide (pv = l)) as [<-|]; [|done].
      by rewrite Hndp.
    + rewrite Htl, Hnext. destruct l2 as [|x l2]; simpl.
      * destruct (decide _) as [_|Hn]; [done|].
        exfalso. apply Hn. split; [|done]. by destruct l1.
      * by destruct (decide _) as [[_ ?]|_].
Qed.

Lemma splice_counted p l1 c l2 nd new :
  counted p (l1 ++ c :: l2) →
  nodes p !! c = Some nd →
  ∃ l, (l ∉ l1 ++ c :: l2) ∧
    counted (splice p (last l1) nd new) (l1 ++ l :: l2) ∧
    nodes (splice p (last l1) nd new) !! l = Some (mkNode new (next nd)) ∧
    values (nodes (splice p (last l1) nd new)) (l1 ++ l2)
      = values (nodes p) (l1 ++ l2) ∧
    tail (splice p (last l1) nd new) =
      (if decide (l1 ≠ [] ∧ l2 = []) then Some l else tail p) ∧
    cleaned (splice p (last l1) nd new) = cleaned p.
Proof.
  intros (Hc & Hnd & Hsz) Hc_nd.
  destruct (splice_fields p (last l1) nd new) as (Hns & Hhd & Htl & Hnum & Hcl).
  set (l := fresh (dom (nodes p))) in *.
  set (p' := splice p (last l1) nd new) in *. clearbody p'.
  assert (Hl : nodes p !! l = None) by apply not_elem_of_dom, is_fresh.
  assert (Hfresh : l ∉ l1 ++ c :: l2).
  { intros Hin. destruct (segment_allocated _ _ _ _ _ Hc Hin) as [? ?].
    congruence. }
  exists l. split; [done|].
  apply chain_split in Hc as (nd' & Hnd' & Hseg & Hrest).
  rewrite Hc_nd in Hnd'. injection Hnd' as <-.
  pose proof (chain_next_start _ _ _ Hrest) as Hnext.
  assert (Hsize : size p' = Z.of_nat (length (l1 ++ l :: l2))).
  { unfold size in *. rewrite Hnum, Hsz. by rewrite !length_app. }
  assert (Hnd' : NoDup (l1 ++ l :: l2)).
  { apply NoDup_app in Hnd as (H1 & H2 & H3). apply NoDup_cons in H3 as [_ H3].
    apply NoDup_app. split; [done|]. split.
    - intros x Hx [->|Hx2]%elem_of_cons.
      + apply Hfresh. apply elem_of_app. by left.
      + apply (H2 x Hx). by right.
    - apply NoDup_cons. split; [|done]. intros Hin. apply Hfresh.
      apply elem_of_app. right. by right. }
  assert (Hl12 : ∀ x, x ∈ l1 ++ l2 → x ≠ l).
  { intros x Hx ->. apply Hfresh.
    apply elem_of_app in Hx as [?|?]; apply elem_of_app; [by left|].
    right. by right. }
  destruct (last l1) as [pv|] eqn:Hlast.
  2:{ (* swapping the head node *)
    apply last_None in Hlast as ->.
    change ([] ++ l2) with l2 in *.
    change ([] ++ l :: l2) with (l :: l2) in *.
    split; [|split; [|split; [|split; [|done]]]].
    + split; [|done]. unfold chain. rewrite Hhd, Hns. simpl.
      split; [done|]. exists (mkNode new (next nd)).
      rewrite lookup_insert_eq. split; [done|]. simpl.
      eapply segment_agree; [|exact Hrest].
      intros x Hx. rewrite lookup_insert_ne; [done|].
      intros ->. by apply (Hl12 x).
    + by rewrite Hns, lookup_insert_eq.
    + apply values_agree. intros x Hx. rewrite Hns.
      rewrite lookup_insert_ne; [done|]. intros ->. by apply (Hl12 x).
    + rewrite Htl. by destruct (decide _) as [[? _]|_]. }
  - (* swapping a node behind [pv] *)
    apply last_Some in Hlast as [l1' ->]. rename l1' into l1.
    apply segment_snoc in Hseg as (Hseg & ndp & Hndp & Hnextp).
    assert (Hl12' : ∀ x, x ∈ l1 ++ l2 → x ≠ l).
    { intros x Hx. apply Hl12. rewrite !elem_of_app in *. tauto. }
    assert (Hpvl : pv ≠ l).
    { intros ->. congruence. }
    assert (Hpv : pv ∉ l1 ++ l2).
    { apply NoDup_app in Hnd' as (H1 & H2 & H3).
      apply NoDup_app in H1 as (_ & H1 & _).
      intros [Hin|Hin]%elem_of_app.
      - apply (H1 pv Hin). left.
      - apply (H2 pv); [apply elem_of_app; right; left|by right]. }
    assert (Hag : ∀ x, x ∈ l1 ++ l2 → nodes p' !! x = nodes p !! x).
    { intros x Hx. rewrite Hns. rewrite lookup_alter_ne by (by intros ->).
      rewrite lookup_insert_ne; [done|]. intros ->. by apply (Hl12' x). }
    split; [|split; [|split; [|split; [|done]]]].
    + split; [|done]. unfold chain. rewrite Hhd, <-app_assoc.
      apply segment_app. exists (Some pv). split.
      * eapply segment_agree; [|exact Hseg].
        intros x Hx. apply Hag. apply elem_of_app. by left.
      * simpl. split; [done|]. exists (mkNode (val ndp) (Some l)). split.
        -- rewrite Hns, lookup_alter_eq, lookup_insert_ne by done.
           by rewrite Hndp.
        -- simpl. split; [done|]. exists (mkNode new (next nd)). split.
           ++ rewrite Hns, lookup_alter_ne, lookup_insert_eq by done. done.
           ++ simpl. eapply segment_agree; [|exact Hrest].
              intros x Hx. apply Hag. apply elem_of_app. by right.
    + rewrite Hns, lookup_alter_ne, lookup_insert_eq by done. done.
    + apply values_agree. intros x Hx. rewrite Hns.
      rewrite lookup_alter.
      destruct (decide (pv = x)) as [<-|].
      * rewrite lookup_insert_ne by done. by rewrite Hndp.
      * rewrite lookup_insert_ne; [done|]. intros ->. by apply (Hl12 x).
    + rewrite Htl, Hnext. destruct l2 as [|x l2]; simpl.
      * destruct (decide _) as [_|Hn]; [done|].
        exfalso. apply Hn. split; [|done]. by destruct l1.
      * by destruct (decide _) as [[_ ?]|_].
Qed.

Lemma locate_Some_inv ns target prev ls pv c nd :
  locate ns target prev ls = Some (pv, c, nd) →
  ∃ l1 l2, ls = l1 ++ c :: l2 ∧ ns !! c = Some nd ∧ holds ns target c ∧
    (∀ l, l ∈ l1 → ¬ holds ns target l) ∧
    pv = match last l1 with Some x => Some x | None => prev end.
Proof.
  revert prev. induction ls as [|x ls IH]; intros prev; simpl; [done|].
  destruct (ns !! x) as [ndx|] eqn:Hx; [|done].
  destruct (samePartitions (val ndx) target) eqn:Hs.
  - intros [= <- <- <-]. exists [], ls. split; [done|]. split; [done|].
    split; [by apply (holds_same ns target x ndx)|]. split; [|done].
    intros l Hl. by apply elem_of_nil in Hl.
  - intros (l1 & l2 & -> & Hc & Hh & Hno & ->)%IH.
    exists (x :: l1), l2. split; [done|]. split; [done|]. split; [done|].
    split.
    + intros l [->|Hl]%elem_of_cons; [|by apply Hno].
      intros Hhx%(holds_same ns target x ndx Hx). congruence.
    + destruct l1 as [|y l1]; [done|]. rewrite last_cons_cons.
      destruct (last (y :: l1)) eqn:Hlast; [done|].
      by apply last_None in Hlast.
Qed.

(** [remove] as a function of the first node that holds the target. *)
Lemma remove_locate p ls target fuel :
  counted p ls → (length ls < fuel)%nat →
  remove fuel p target =
    Some (if (size p <=? 0)%Z then (p, Some "empty partition")
          else match locate (nodes p) target None ls with
               | None => (p, Some "the given partition was not found")
               | Some (pv, _, nd) =>
                   (unlink p pv nd,
                    (λ err, "failed to clean resources managed by partition to be removed: " +:+ err)
                      <$> clean (val nd))
               end).
Proof.
  intros (Hc & _ & _) Hfuel. unfold remove.
  destruct (size p <=? 0)%Z; [done|].
  by apply (remove_loop_locate target ls fuel p _ None (head p)).
Qed.

Lemma swap_locate p ls old new fuel :
  counted p ls → (length ls < fuel)%nat →
  swap fuel p old new =
    Some (if (size p <=? 0)%Z then (p, Some "empty partition")
          else match locate (nodes p) old None ls with
               | None => (p, Some "the given partition was not found")
               | Some (pv, _, nd) => (splice p pv nd new, None)
               end).
Proof.
  intros (Hc & _ & _) Hfuel. unfold swap.
  destruct (size p <=? 0)%Z; [done|].
  by apply (swap_loop_locate old new ls fuel p _ None (head p)).
Qed.

(** Each operation keeps [size] the number of nodes reachable from the
    head, and adds one node at most. *)
Lemma step_counted p ls (o : op P) fuel :
  counted p ls → (length ls < fuel)%nat →
  (Z.of_nat (length ls) < max_int64)%Z →
  ∃ p' ls', step fuel p o = Some p' ∧ counted p' ls' ∧
            (length ls' <= S (length ls))%nat.
Proof.
  intros Hcnt Hfuel Hbound. destruct o as [part|target|old new]; simpl.
  - destruct (insert_counted p ls part Hcnt Hbound) as (l & _ & Hc & _).
    exists (insert p part), (l :: ls). split; [done|]. split; [done|].
    simpl. lia.
  - rewrite (remove_locate p ls target fuel Hcnt Hfuel). simpl.
    destruct (size p <=? 0)%Z; [exists p, ls; split; [done|]; split; [done|lia]|].
    destruct (locate (nodes p) target None ls) as [[[pv c] nd]|] eqn:Hloc;
      [|exists p, ls; split; [done|]; split; [done|lia]].
    apply locate_Some_inv in Hloc as (l1 & l2 & -> & Hnd & _ & _ & ->).
    replace (match last l1 with Some x => Some x | None => None end)
      with (last l1) by by destruct (last l1).
    destruct (unlink_counted p l1 c l2 nd Hcnt Hnd ltac:(lia)) as (Hc' & _).
    eexists _, (l1 ++ l2). split; [done|]. split; [done|].
    rewrite !length_app. simpl. lia.
  - rewrite (swap_locate p ls old new fuel Hcnt Hfuel). simpl.
    destruct (size p <=? 0)%Z; [exists p, ls; split; [done|]; split; [done|lia]|].
    destruct (locate (nodes p) old None ls) as [[[pv c] nd]|] eqn:Hloc;
      [|exists p, ls; split; [done|]; split; [done|lia]].
    apply locate_Some_inv in Hloc as (l1 & l2 & -> & Hnd & _ & _ & ->).
    replace (match last l1 with Some x => Some x | None => None end)
      with (last l1) by by destruct (last l1).
    destruct (splice_counted p l1 c l2 nd new Hcnt Hnd) as (l & _ & Hc' & _).
    eexists _, (l1 ++ l :: l2). split; [done|]. split; [done|].
    rewrite !length_app. simpl. lia.
Qed.

Lemma run_counted (os : list (op P)) : ∀ p ls fuel,
  counted p ls → (length ls + length os < fuel)%nat →
  (Z.of_nat (length ls + length os) < max_int64)%Z →
  ∃ p' ls', run fuel p os = Some p' ∧ counted p' ls' ∧
            (length ls' <= length ls + length os)%nat.
Proof.
  induction os as [|o os IH]; intros p ls fuel Hcnt Hfuel Hbound; simpl in *.
  { exists p, ls. split; [done|]. split; [done|lia]. }
  destruct (step_counted p ls o fuel Hcnt ltac:(lia) ltac:(lia))
    as (p1 & ls1 & -> & Hcnt1 & Hlen).
  simpl.
  destruct (IH p1 ls1 fuel Hcnt1 ltac:(lia) ltac:(lia))
    as (p' & ls' & Hrun & Hcnt' & Hlen').
  exists p', ls'. split; [done|]. split; [done|lia].
Qed.

(** What does hold of the invariant of the list: after any sequence of
    [insert], [remove] and [swap] on the empty list, [size] is the number
    of nodes reachable from the head, and the head is nil exactly when
    [size] is zero.  (The fuel bounds the length of the scans; the count
    stays below the greatest [int64].) *)
Lemma operations_counted (os : list (op P)) fuel :
  (length os < fuel)%nat →
  (Z.of_nat (length os) < max_int64)%Z →
  ∃ p ls, run fuel newPartitionList os = Some p ∧
    chain (nodes p) (head p) ls ∧
    reachable fuel (nodes p) (head p) = Some ls ∧
    size p = Z.of_nat (length ls) ∧
    (head p = None ↔ size p = 0%Z).
Proof.
  intros Hfuel Hbound.
  destruct (run_counted os newPartitionList [] fuel counted_new Hfuel Hbound)
    as (p & ls & Hrun & Hcnt & Hlen).
  exists p, ls. split; [done|]. pose proof Hcnt as (Hc & _ & Hsz).
  split; [done|]. split; [|split; [done|by eapply counted_head_nil]].
  apply reachable_chain; [done|]. simpl in Hlen. lia.
Qed.


(** [swap] on such a list: an error and no change when no node holds [old];
    otherwise a new node with [new] stands where the first such node
    stood. *)
Lemma swap_first_match p ls old new fuel :
  counted p ls →
  (length ls < fuel)%nat →
  ∃ p' err, swap fuel p old new = Some (p', err) ∧
    ((∀ l, l ∈ ls → ¬ holds (nodes p) old l) → is_Some err ∧ p' = p) ∧
    (∀ l1 c l2,
       ls = l1 ++ c :: l2 →
       holds (nodes p) old c →
       (∀ l, l ∈ l1 → ¬ holds (nodes p) old l) →
       ∃ l nd, err = None ∧
         nodes p' !! l = Some nd ∧ val nd = new ∧
         counted p' (l1 ++ l :: l2) ∧
         values (nodes p') (l1 ++ l2) = values (nodes p) (l1 ++ l2) ∧
         cleaned p' = cleaned p ∧
         (l1 ≠ [] → l2 = [] → tail p' = Some l)).
Proof.
  intros Hcnt Hfuel. rewrite (swap_locate p ls old new fuel Hcnt Hfuel).
  match goal with |- ∃ _ _, Some ?x = _ ∧ _ => set (r := x) end.
  exists r.1, r.2. split; [by destruct r|]. subst r.
  pose proof Hcnt as (Hc & Hnd & Hsz).
  destruct (Z.leb_spec (size p) 0) as [Hle|Hgt].
  { assert (ls = []) as -> by (destruct ls; [done|simpl in Hsz; lia]).
    simpl. split; [by eauto|]. intros l1 c l2 Heq. by destruct l1. }
  split.
  - intros Hno. by rewrite (locate_none _ _ None ls Hno).
  - intros l1 c l2 -> (nd & Hc_nd & Hmin) Hno.
    rewrite (locate_first (nodes p) old None l1 c l2 nd).
    + replace (match last l1 with Some x => Some x | None => None end)
        with (last l1) by by destruct (last l1).
      cbn [fst snd].
      destruct (splice_counted p l1 c l2 nd new Hcnt Hc_nd)
        as (l & _ & Hcnt' & Hl & Hvals & Htl & Hcl).
      exists l, (mkNode new (next nd)). split; [done|]. split; [done|].
      split; [done|]. split; [done|]. split; [done|]. split; [done|].
      intros Hl1 Hl2. rewrite Htl.
      by destruct (decide _) as [_|Hn]; [|destruct Hn].
    + intros l Hl. split; [|by apply Hno].
      eapply segment_allocated; [exact Hc|]. apply elem_of_app. by left.
    + done.
    + by exists nd.
Qed.

End plist_facts.

Lemma series_inv_m123 : Metric.series_inv m123.
Proof.
  split; simpl; [done| |by intros ? [= <-]..].
  unfold Metric.ascending; simpl. repeat constructor; lia.
Qed.

(** The invariant and the bound hold of the series 1, 2, 3, to which a
    point of timestamp 3 is then offered. *)
Lemma insertPoint_preserves_invariant_witness :
  Metric.series_inv m123 ∧ (Metric.size m123 < max_int64)%Z ∧
  ∃ m', Metric.insertPoint m123 (dp 3) = Some m' ∧ Metric.series_inv m' ∧
        Metric.outOfOrderPoints m' = [dp 3] ∧ Metric.points m' = Metric.points m123.
Proof.
  split; [exact series_inv_m123|]. split; [done|].
  destruct (insertPoint_preserves_invariant m123 (dp 3) series_inv_m123 eq_refl)
    as (m' & Hm' & Hinv & Hooo & _).
  exists m'. split; [exact Hm'|]. split; [exact Hinv|].
  destruct (Hooo (dp 3) eq_refl) as (H1 & H2 & _); [simpl; lia|].
  split; [exact H1 | exact H2].
Defined.

Section flush.
Import Metric.
Context {T E : Type} `{!seriesEncoder T E} `{!SliceSorter T}.

(** C3, as amended: on a series whose [points] are ascending,
    [encodeAllPoints] makes its calls of [encoder.encodePoint] along one
    order [calls st ++ rest] of the multiset [points ++ outOfOrderPoints]:
    every point once, in ascending order of timestamp, with the in-order
    point first where an in-order and an out-of-order point have the same
    timestamp.  The calls are made in turn on the encoder and stop at the
    first that returns an error.  When no call returns an error,
    [encodeAllPoints] returns nil and has gone through the whole order
    ([rest] is empty).  When a call returns an error, [encodeAllPoints]
    returns that error at once: the failing call is the last one made, all
    calls before it returned nil, and the error returned is the one of that
    call.  In particular the result is nil only if every call returned
    nil. *)
Theorem encodeAllPoints_flush_order (m : memoryMetric T) (e : E) :
  ascending (points m) →
  ∃ m' st r rest, encodeAllPoints m e = (m', st, r) ∧
    points m' = points m ∧
    outOfOrderPoints m' ≡ₚ outOfOrderPoints m ∧
    flush_order (points m) (outOfOrderPoints m) (calls st ++ rest) ∧
    encoded e (calls st) (enc st) r ∧
    match r with
    | None => rest = []
    | Some err => ∃ before o p (e0 : E),
        calls st = before ++ [(o, p)] ∧
        encoded e before e0 None ∧
        encodePoint e0 p = (enc st, Some err)
    end.
Proof.
  intros Hasc. unfold encodeAllPoints.
  pose proof (merge_loop_ran (sortSlice (outOfOrderPoints m)) (points m)
                (mkEncState e [])) as Hran.
  destruct (merge_loop (sortSlice (outOfOrderPoints m)) (points m)
              (mkEncState e [])) as [st r].
  destruct Hran as (done & rest & Hall & Hcalls & Hdone & Hrest).
  simpl in Hcalls, Hdone, Hrest. subst done.
  eexists _, st, r, rest. split; [done|]. simpl. split; [done|].
  split; [apply sortSlice_perm|].
  pose proof (merged_flush_order (outOfOrderPoints m)
                (sortSlice (outOfOrderPoints m)) (points m)
                (sortSlice_perm _) (sortSlice_sorted _)
                (ascending_strongly _ Hasc)) as Hfo.
  rewrite Hall in Hfo. split; [exact Hfo|]. split; [exact Hdone|].
  destruct r as [err|]; [by apply encoded_error|by apply Hrest].
Qed.

End flush.

(** The series of the test suite (in-order 1, 3; out-of-order 4, 2).  With an
    encoder that never fails the calls are 1, 2, 3, 4 and the result is nil;
    with the encoder of [Test_memoryMetric_EncodeAllPoints_error], whose
    every call fails, the first call (the in-order point 1) is the only one
    and its error is returned. *)
Lemma encodeAllPoints_flush_order_witness :
  Metric.ascending (Metric.points m13_42) ∧
  (∃ m' st, Metric.encodeAllPoints m13_42 quietEncoder = (m', st, None) ∧
    Metric.flush_order (Metric.points m13_42)
      (Metric.outOfOrderPoints m13_42) (Metric.calls st) ∧
    (Metric.calls st).*2 = [dp 1; dp 2; dp 3; dp 4]) ∧
  (∃ m' st rest,
    Metric.encodeAllPoints m13_42 failingEncoder =
      (m', st, Some "some error") ∧
    Metric.calls st = [(Metric.FromPoints, dp 1)] ∧
    Metric.flush_order (Metric.points m13_42)
      (Metric.outOfOrderPoints m13_42) (Metric.calls st ++ rest)).
Proof.
  assert (Hasc : Metric.ascending (Metric.points m13_42)).
  { unfold Metric.ascending. simpl. repeat constructor. lia. }
  split; [exact Hasc|]. split.
  - destruct (encodeAllPoints_flush_order m13_42 quietEncoder Hasc)
      as (m' & st & r & rest & Heq & _ & _ & Hfo & _ & Hr).
    assert (Hrun : Metric.encodeAllPoints m13_42 quietEncoder =
                   (m', st, None) ∧
                   (Metric.calls st).*2 = [dp 1; dp 2; dp 3; dp 4] ∧
                   r = None).
    { revert Heq. vm_compute. intros [= <- <- <-]. done. }
    destruct Hrun as (Hrun & Hcalls & ->). subst rest.
    rewrite app_nil_r in Hfo.
    exists m', st. split; [exact Hrun|]. split; [exact Hfo | exact Hcalls].
  - destruct (encodeAllPoints_flush_order m13_42 failingEncoder Hasc)
      as (m' & st & r & rest & Heq & _ & _ & Hfo & _ & _).
    assert (Hrun : Metric.encodeAllPoints m13_42 failingEncoder =
                   (m', st, Some "some error") ∧
                   Metric.calls st = [(Metric.FromPoints, dp 1)]).
    { revert Heq. vm_compute. intros [= <- <- <-]. done. }
    destruct Hrun as (Hrun & Hcalls).
    exists m', st, rest. split; [exact Hrun|]. split; [exact Hcalls|exact Hfo].
Defined.

(** C3, as stated, fails when the encoder fails: the same series with the
    encoder of [Test_memoryMetric_EncodeAllPoints_error] sees one call, for
    its four points. *)
Lemma encodeAllPoints_stops_at_error :
  Metric.ascending (Metric.points m13_42) ∧
  (Metric.encodeAllPoints m13_42 failingEncoder).2 = Some "some error" ∧
  Metric.calls (Metric.encodeAllPoints m13_42 failingEncoder).1.2 =
    [(Metric.FromPoints, dp 1)] ∧
  ¬ Metric.flush_order (Metric.points m13_42)
      (Metric.outOfOrderPoints m13_42)
      (Metric.calls (Metric.encodeAllPoints m13_42 failingEncoder).1.2).
Proof.
  split; [unfold Metric.ascending; simpl; repeat constructor; lia|].
  split; [done|]. split; [done|].
  intros [Hperm _ _ _ _]. apply Permutation_length in Hperm.
  vm_compute in Hperm. discriminate.
Qed.

(** ** [selectPoints] at the end of the series *)

(** C1 at the window [1, 3) of the series 1, 2, 3: the window ends at
    [maxTimestamp], the shortcut [end >= maxTimestamp] takes [endIdx = size],
    and the point of timestamp 3 is returned although [end] is exclusive. *)
Theorem selectPoints_end_at_max :
  Metric.series_inv m123 ∧
  Metric.selectPoints m123 1 3 = Some [dp 1; dp 2; dp 3] ∧
  filter (Metric.in_window 1 3) (Metric.points m123) = [dp 1; dp 2].
Proof. split; [exact series_inv_m123|]. split; reflexivity. Qed.

(** The same shortcut on the empty window [3, 3): one point is returned. *)
Lemma selectPoints_empty_window :
  Metric.selectPoints m123 3 3 = Some [dp 3].
Proof. reflexivity. Qed.

(** On an inverted window with a point in between, [startIdx] exceeds
    [endIdx] and the re-slicing panics. *)
Lemma selectPoints_inverted_window :
  Metric.selectPoints m123 3 2 = None.
Proof. reflexivity. Qed.

(** The window of the test suite, away from [maxTimestamp]. *)
Lemma selectPoints_some_points :
  Metric.selectPoints
    (Metric.mkMetric "metric1" 5 1 5 (dp <$> [1; 2; 3; 4; 5]%Z) []) 2 4 =
  Some [dp 2; dp 3].
Proof. reflexivity. Qed.

(** ** The memory partition on the inputs of the test suite *)

Lemma part_inv_after {W} `{!wal unit W} (m : Partition.memoryPartition unit W)
    (rows : list (Row unit)) :
  Partition.part_inv m →
  (Partition.numPoints m + Z.of_nat (length rows) <= max_int64)%Z →
  Partition.part_inv (after m rows).
Proof.
  intros Hinv Hbound. unfold after.
  destruct (insertRows_total marshalName m rows clock0 Hinv Hbound)
    as (m' & out & err & -> & Hinv' & _). exact Hinv'.
Qed.

Lemma part_inv_part2 : Partition.part_inv part2.
Proof. apply part_inv_after; [apply part_inv_new|done]. Qed.

Lemma part_inv_part123 : Partition.part_inv part123.
Proof. apply part_inv_after; [apply part_inv_new|done]. Qed.

(** A log without room: the call returns the error of the log and the
    partition keeps its state. *)
Lemma insertRows_error_iff_witness :
  Partition.part_inv (part_quota 0) ∧
  (Partition.numPoints (part_quota 0) + 1 <= max_int64)%Z ∧
  ∃ m' out err,
    Partition.insertRows marshalName (part_quota 0) [row "metric1" 1] clock0
      = Some (m', out, err) ∧
    is_Some err ∧ Partition.once m' = false ∧ Partition.metrics m' = ∅.
Proof.
  split; [apply part_inv_new|]. split; [done|].
  destruct (insertRows_error_iff marshalName (part_quota 0)
              [row "metric1" 1] clock0 (part_inv_new _ _ _) ltac:(done))
    as (m' & out & err & Hrun & Hiff & Hsame).
  assert (Herr : is_Some err).
  { apply Hiff. right. by eexists. }
  destruct (Hsame Herr) as (Ho & _ & _ & _ & Hms).
  exists m', out, err. split; [exact Hrun|]. split; [exact Herr|].
  split; [exact Ho | exact Hms].
Defined.

(** An empty batch, then the rows 5 and 3, then the row 1: [minT] is 3. *)
Lemma minT_latch_witness :
  Partition.part_inv part0 ∧
  ∃ m',
    Partition.run_inserts marshalName part0
      [([], clock0);
       ([row "metric1" 5; row "metric1" 3], clock0);
       ([row "metric1" 1], clock0)] = Some m' ∧
    Partition.once m' = true ∧
    Partition.least_timestamp [row "metric1" 5; row "metric1" 3]
      (Partition.minTimestamp m') ∧
    Partition.minTimestamp m' = 3%Z.
Proof.
  split; [apply part_inv_new|].
  destruct (minT_latch marshalName
              [([], clock0);
               ([row "metric1" 5; row "metric1" 3], clock0);
               ([row "metric1" 1], clock0)] part0
              (part_inv_new _ _ _) ltac:(done))
    as (m' & Hrun & Hm').
  exists m'. split; [exact Hrun|].
  change (Partition.once m' = true ∧
          Partition.least_timestamp [row "metric1" 5; row "metric1" 3]
            (Partition.minTimestamp m')) in Hm'.
  destruct Hm' as [Ho Hleast]. split; [exact Ho|]. split; [exact Hleast|].
  destruct Hleast as [(r & Hr & Heq) Hle].
  assert (H3 : (Partition.minTimestamp m' <= 3)%Z).
  { apply (Hle (row "metric1" 3)). right. left. }
  rewrite <-Heq in *.
  apply elem_of_cons in Hr as [->|Hr].
  { unfold row, rowTimestamp, dp in H3. simpl in H3. lia. }
  apply elem_of_cons in Hr as [->|Hr]; [reflexivity|].
  by apply elem_of_nil in Hr.
Defined.

(** Onto the row of timestamp 2: an outdated row, a row in order, a
    duplicate and a late row.  Three of the four rows are counted. *)
Lemma insertRows_size_witness :
  (0 <= Partition.numPoints part2)%Z ∧
  (Partition.numPoints part2 + 4 <= max_int64)%Z ∧
  ∃ m' O,
    Partition.insertRows marshalName part2
      [row "metric1" 1; row "metric1" 3; row "metric1" 3; row "metric1" 2]
      clock0 = Some (m', O, None) ∧
    O = [row "metric1" 1] ∧
    Partition.size m' = (Partition.size part2 + 4 - 1)%Z.
Proof.
  split; [done|]. split; [done|].
  assert (Hrun : ∃ m',
    Partition.insertRows marshalName part2
      [row "metric1" 1; row "metric1" 3; row "metric1" 3; row "metric1" 2]
      clock0 = Some (m', [row "metric1" 1], None)).
  { vm_compute. eexists. reflexivity. }
  destruct Hrun as (m' & Hrun).
  exists m', [row "metric1" 1]. split; [exact Hrun|]. split; [reflexivity|].
  exact (insertRows_size marshalName part2
           [row "metric1" 1; row "metric1" 3; row "metric1" 3; row "metric1" 2]
           clock0 m' [row "metric1" 1] ltac:(done) ltac:(done) Hrun).
Defined.

(** The second call of the test "insert out-of-order rows". *)
Lemma insertRows_outdated_witness :
  Partition.part_inv part2 ∧ Partition.once part2 = true ∧
  Partition.passes part2 [row "metric1" 1] ∧
  ∃ m',
    Partition.insertRows marshalName part2 [row "metric1" 1] clock0 =
      Some (m', [row "metric1" 1], None) ∧
    Partition.metrics m' = Partition.metrics part2 ∧
    Partition.numPoints m' = Partition.numPoints part2 ∧
    Partition.maxT m' = Partition.maxT part2.
Proof.
  split; [exact part_inv_part2|]. split; [reflexivity|].
  assert (Hp : Partition.passes part2 [row "metric1" 1]) by done.
  split; [exact Hp|].
  destruct (insertRows_outdated marshalName part2 [row "metric1" 1] clock0
              part_inv_part2 eq_refl Hp ltac:(done))
    as (m' & Hrun & _ & _ & _ & _ & Hall).
  exists m'. split; [exact Hrun|]. apply Hall.
  repeat constructor.
Defined.

(** C4, as stated, fails when the log fails: the partition is latched at 2,
    the batch has one row, of timestamp 1, and the call returns the error
    of the log and no row. *)
Lemma wal_failure_returns_no_rows :
  Partition.part_inv part2_full ∧
  Partition.once part2_full = true ∧ Partition.minT part2_full = 2%Z ∧
  filter (Partition.outdated (Partition.minT part2_full)) [row "metric1" 1]
    = [row "metric1" 1] ∧
  Partition.insertRows marshalName part2_full [row "metric1" 1] clock0 =
    Some (part2_full, [],
          Some "failed to write to WAL: no space left on device") ∧
  ¬ ∃ m', Partition.insertRows marshalName part2_full [row "metric1" 1] clock0
          = Some (m', [row "metric1" 1], None).
Proof.
  split; [apply part_inv_after; [apply part_inv_new|done]|].
  split; [done|]. split; [done|]. split; [done|].
  assert (Hrun :
    Partition.insertRows marshalName part2_full [row "metric1" 1] clock0 =
    Some (part2_full, [],
          Some "failed to write to WAL: no space left on device"))
    by (vm_compute; reflexivity).
  split; [exact Hrun|]. rewrite Hrun. by intros [m' ?].
Qed.

(** C10 on the inverted window [3, 2) of the series 1, 2, 3: the call does
    not return a nil error, it panics on the re-slicing [points[2:1]]. *)
Theorem selectDataPoints_inverted_window :
  Partition.part_inv part123 ∧
  (Metric.points <$> Partition.metrics part123 !! "metric1")
    = Some [dp 1; dp 2; dp 3] ∧
  Partition.selectDataPoints marshalName part123 "metric1" [] 3 2 = None.
Proof.
  split; [exact part_inv_part123|]. split; vm_compute; reflexivity.
Qed.

(** The windows of the test suite on that partition. *)
Lemma selectDataPoints_all_points :
  Partition.selectDataPoints marshalName part123 "metric1" [] 1 4 =
    Some (part123, [dp 1; dp 2; dp 3], None).
Proof. vm_compute. reflexivity. Qed.

Lemma selectDataPoints_after_outdated :
  Partition.selectDataPoints marshalName (after part2 [row "metric1" 1])
    "metric1" [] 0 4 = Some (part2, [dp 2], None).
Proof. vm_compute. reflexivity. Qed.

(** ** The partition list on the inputs of the test suite *)




(** C2 at the first [insert]: [insert] sets the head and the counter and
    never the tail.  After one [insert] into the empty list one node is
    reachable from the head and [size] is 1, yet [tail] is nil: the tail is
    not the last reachable node, and head and tail disagree on emptiness. *)
Theorem insert_leaves_tail_nil :
  PartitionList.run 1 PartitionList.newPartitionList
    [PartitionList.OpInsert (fk 1)] = Some list1 ∧
  PartitionList.reachable 1 (PartitionList.nodes list1)
    (PartitionList.head list1) = Some [1%positive] ∧
  PartitionList.size list1 = 1%Z ∧
  PartitionList.head list1 = Some 1%positive ∧
  PartitionList.tail list1 = None ∧
  ¬ PartitionList.list_inv list1 [1%positive].
Proof.
  split; [done|]. split; [by vm_compute|]. split; [done|].
  split; [by vm_compute|]. split; [done|].
  intros (_ & _ & Htl & _). by vm_compute in Htl.
Qed.

(** Removing the only node leaves the tail where it was: the list of the
    test "remove the head node", emptied, still has a tail. *)
Lemma remove_sole_keeps_tail :
  ∃ p1 p2,
    PartitionList.remove 3 list321 (fk 1) = Some (p1, None) ∧
    PartitionList.tail p1 = Some 2%positive ∧
    PartitionList.remove 3 p1 (fk 3) = Some (p2, None) ∧
    PartitionList.remove 3 p2 (fk 2)
      = Some (PartitionList.mkList 0 None (Some 2%positive)
                (PartitionList.nodes p2) [fk 1; fk 3; fk 2], None).
Proof. eexists _, _. split; [by vm_compute|]. repeat split; by vm_compute. Qed.
